(** * Lite-Blockchain (cryptocypher): a shallow embedding of the core

    The Go packages [pkg/blockchain] and [pkg/p2p] are embedded as Rocq
    functions, and the properties the specification states about them are
    settled against these definitions.

    Conventions of the embedding.
    - Go's [int], [int64] and [time.Duration] are 64-bit two's complement
      integers: they are [Z] values, and every arithmetic result goes
      through [wrap64].
    - Go's [string] is a byte sequence: Rocq's [string].
    - Go's [float64] is IEEE 754 binary64: Rocq's primitive [float].
    - [crypto/sha256] is implemented after FIPS 180-4 ([SHA256.sum256]).
    - A function that reads a [[]*Block] without writing through the
      pointers takes the list of the blocks pointed to.  The one operation
      that writes through a block pointer ([UpdateBlockWithSubBlockEx]) is
      embedded over an explicit store of blocks ([BlockStore]).
    - The wall clock, the JSON encoder and the file system are outside the
      program: the values they return are arguments of the embedding.
    - [MineBlock] has no bound on its search; its embedding takes a bound on
      the number of attempts and returns [Timeout] when the bound is
      reached. *)

From Stdlib Require Import ZArith List String Ascii Lia Bool Floats.
From stdpp Require Import base gmap strings list fin_maps pretty.

Local Open Scope string_scope.
Local Open Scope list_scope.
Local Open Scope Z_scope.

(** ** Outcomes of a Go call *)

Inductive result (A : Type) : Type :=
| Ok (a : A)
| Panic (msg : string)
| Timeout.
Arguments Ok {A} a.
Arguments Panic {A} msg.
Arguments Timeout {A}.

#[global] Instance result_bind : MBind result := fun A B k r =>
  match r with
  | Ok a => k a
  | Panic m => Panic m
  | Timeout => Timeout
  end.

(** ** Machine integers *)

Definition wrap64 (z : Z) : Z := (z + 2 ^ 63) mod 2 ^ 64 - 2 ^ 63.

Definition in_int64 (z : Z) : Prop := - 2 ^ 63 <= z < 2 ^ 63.

Definition add64 (x y : Z) : Z := wrap64 (x + y).
Definition sub64 (x y : Z) : Z := wrap64 (x - y).
Definition mul64 (x y : Z) : Z := wrap64 (x * y).
(** Go's [/] truncates toward zero; the one overflowing quotient wraps. *)
Definition div64 (x y : Z) : Z := wrap64 (Z.quot x y).

(** ** crypto/sha256 and encoding/hex *)

Module SHA256.

Definition mask32 : Z := 0xFFFFFFFF.
Definition add32 (x y : Z) : Z := Z.land (x + y) mask32.
Definition rotr (n x : Z) : Z :=
  Z.lor (Z.shiftr x n) (Z.land (Z.shiftl x (32 - n)) mask32).
Definition not32 (x : Z) : Z := Z.lxor x mask32.

Definition Ch (x y z : Z) : Z := Z.lxor (Z.land x y) (Z.land (not32 x) z).
Definition Maj (x y z : Z) : Z :=
  Z.lxor (Z.lxor (Z.land x y) (Z.land x z)) (Z.land y z).
Definition bsig0 (x : Z) : Z := Z.lxor (Z.lxor (rotr 2 x) (rotr 13 x)) (rotr 22 x).
Definition bsig1 (x : Z) : Z := Z.lxor (Z.lxor (rotr 6 x) (rotr 11 x)) (rotr 25 x).
Definition ssig0 (x : Z) : Z := Z.lxor (Z.lxor (rotr 7 x) (rotr 18 x)) (Z.shiftr x 3).
Definition ssig1 (x : Z) : Z := Z.lxor (Z.lxor (rotr 17 x) (rotr 19 x)) (Z.shiftr x 10).

(** The constants of FIPS 180-4 are fractional parts of roots of the first
    primes; they are computed here rather than tabulated. *)
Definition is_prime (n : Z) : bool :=
  (1 <? n) && forallb (fun d => negb (n mod d =? 0) || (n <=? d))
                      (List.map Z.of_nat (seq 2 17)).

Definition primes : list Z :=
  Eval vm_compute in List.filter is_prime (List.map Z.of_nat (seq 2 310)).

(** Integer cube root by bisection on the bits of the root. *)
Fixpoint cube_root_bits (n : nat) (x r : Z) : Z :=
  match n with
  | O => r
  | S n' =>
      let c := Z.lor r (Z.shiftl 1 (Z.of_nat n')) in
      if c * c * c <=? x then cube_root_bits n' x c else cube_root_bits n' x r
  end.

Definition cube_root (x : Z) : Z := cube_root_bits 40 x 0.

(** First 32 bits of the fractional parts of the cube roots of the first 64
    primes. *)
Definition K : list Z :=
  Eval vm_compute in
    List.map (fun p => Z.land (cube_root (p * 2 ^ 96)) mask32) primes.

(** First 32 bits of the fractional parts of the square roots of the first 8
    primes. *)
Definition H0 : list Z :=
  Eval vm_compute in
    List.map (fun p => Z.land (Z.sqrt (p * 2 ^ 64)) mask32) (firstn 8 primes).

(** Big-endian words of a byte list (the list is padded to whole words). *)
Fixpoint words (bs : list Z) : list Z :=
  match bs with
  | b0 :: b1 :: b2 :: b3 :: rest =>
      (Z.lor (Z.shiftl b0 24) (Z.lor (Z.shiftl b1 16) (Z.lor (Z.shiftl b2 8) b3)))
        :: words rest
  | _ => []
  end.

Definition word_bytes (w : Z) : list Z :=
  [ Z.land (Z.shiftr w 24) 255; Z.land (Z.shiftr w 16) 255;
    Z.land (Z.shiftr w 8) 255; Z.land w 255 ].

(** Padding: the bit 1, zero bytes up to 56 mod 64, the bit length on 64 bits. *)
Definition pad (msg : list Z) : list Z :=
  let len := Z.of_nat (List.length msg) in
  let zeros := Z.to_nat ((55 - len) mod 64) in
  let bits := len * 8 in
  msg ++ 128 :: List.repeat 0 zeros
      ++ word_bytes (Z.shiftr bits 32) ++ word_bytes (Z.land bits mask32).

(** Message schedule, most recent word first: [rev] holds W(t-1), W(t-2), ... *)
Fixpoint schedule (n : nat) (rev : list Z) : list Z :=
  match n with
  | O => rev
  | S n' =>
      let w := add32 (add32 (ssig1 (nth 1 rev 0)) (nth 6 rev 0))
                     (add32 (ssig0 (nth 14 rev 0)) (nth 15 rev 0)) in
      schedule n' (w :: rev)
  end.

Definition round (st : list Z) (kw : Z * Z) : list Z :=
  match st with
  | [a; b; c; d; e; f; g; h] =>
      let t1 := add32 (add32 (add32 h (bsig1 e)) (add32 (Ch e f g) (fst kw))) (snd kw) in
      let t2 := add32 (bsig0 a) (Maj a b c) in
      [add32 t1 t2; a; b; c; add32 d t1; e; f; g]
  | _ => st
  end.

Definition compress (h : list Z) (block : list Z) : list Z :=
  let w := List.rev (schedule 48 (List.rev block)) in
  let st := fold_left round (combine K w) h in
  List.map (fun p => add32 (fst p) (snd p)) (combine h st).

Fixpoint blocks (n : nat) (ws : list Z) (h : list Z) : list Z :=
  match n with
  | O => h
  | S n' => blocks n' (skipn 16 ws) (compress h (firstn 16 ws))
  end.

(** [sha256.Sum256]: the 32 bytes of the digest. *)
Definition sum256 (msg : list Z) : list Z :=
  let ws := words (pad msg) in
  List.concat (List.map word_bytes (blocks (List.length ws / 16) ws H0)).

End SHA256.

Definition bytes_of_string (s : string) : list Z :=
  List.map (fun c => Z.of_N (N_of_ascii c)) (list_ascii_of_string s).

Definition hex_digit (n : Z) : ascii :=
  match n with
  | 0 => "0" | 1 => "1" | 2 => "2" | 3 => "3" | 4 => "4" | 5 => "5"
  | 6 => "6" | 7 => "7" | 8 => "8" | 9 => "9" | 10 => "a" | 11 => "b"
  | 12 => "c" | 13 => "d" | 14 => "e" | _ => "f"
  end%char.

(** [hex.EncodeToString]: two lower-case digits per byte. *)
Fixpoint EncodeToString (bs : list Z) : string :=
  match bs with
  | [] => ""
  | b :: rest =>
      String (hex_digit (Z.shiftr b 4)) (String (hex_digit (Z.land b 15)) (EncodeToString rest))
  end.

Definition sha256_hex (s : string) : string :=
  EncodeToString (SHA256.sum256 (bytes_of_string s)).

(** ** fmt and strings *)

(** [%d] of an integer. *)
Definition fmt_d (n : Z) : string := pretty n.

Fixpoint join_spaces (l : list string) : string :=
  match l with
  | [] => ""
  | [x] => x
  | x :: rest => x +:+ " " +:+ join_spaces rest
  end.

(** [%v] of a [[]string]: the elements, separated by spaces, in brackets. *)
Definition fmt_v_strings (l : list string) : string := "[" +:+ join_spaces l +:+ "]".

(** What [Sprintf] appends for one string argument left over by the format. *)
Definition fmt_extra_string (s : string) : string := "%!(EXTRA string=" +:+ s +:+ ")".

Fixpoint repeat_string (s : string) (n : nat) : string :=
  match n with
  | O => ""
  | S n' => s +:+ repeat_string s n'
  end.

(** [strings.Repeat] panics on a negative count. *)
Definition Repeat (s : string) (count : Z) : result string :=
  if count <? 0 then Panic "strings: negative Repeat count"
  else Ok (repeat_string s (Z.to_nat count)).

(** [strings.HasPrefix s prefix]. *)
Definition HasPrefix (s prefix : string) : bool := String.prefix prefix s.

(** Number of ["0"] characters a string starts with. *)
Fixpoint leading_zeros (s : string) : nat :=
  match s with
  | String "0"%char rest => S (leading_zeros rest)
  | _ => O
  end.

(** ** Transactions (transaction.go) *)

(** [Params] (a free-form map read only by the contract engine) is left out. *)
Record Transaction := mkTransaction {
  Sender : string;
  Recipient : string;
  Amount : float;
  TxTimestamp : Z;
  ContractName : string;
  Method : string;
  Signature : string;
  TxNonce : Z
}.

(** [now] is the value of [time.Now().Unix()]. *)
Definition NewTransaction (now : Z) (sender recipient : string) (amount : float)
    (nonce : Z) : Transaction :=
  {| Sender := sender; Recipient := recipient; Amount := amount;
     TxTimestamp := now; ContractName := ""; Method := ""; Signature := "";
     TxNonce := nonce |}.

Record TransactionPool := mkPool { PoolTransactions : list Transaction }.

(** ** Blocks and hashing (blockchain.go) *)

(** Address of a block in a [BlockStore]. *)
Definition ptr := nat.

Record Block := mkBlock {
  Index : Z;
  Timestamp : Z;
  PrevHash : string;
  Hash : string;
  Nonce : Z;
  RelationshipType : string;
  Receivers : list string;
  TextData : string;
  AudioData : string;
  VideoData : string;
  Transactions : list Transaction;
  SubBlocks : list ptr;
  Difficulty : Z;
  Category : string
}.

Definition set_Hash (h : string) (b : Block) : Block :=
  mkBlock (Index b) (Timestamp b) (PrevHash b) h (Nonce b) (RelationshipType b)
    (Receivers b) (TextData b) (AudioData b) (VideoData b) (Transactions b)
    (SubBlocks b) (Difficulty b) (Category b).

Definition set_Nonce (n : Z) (b : Block) : Block :=
  mkBlock (Index b) (Timestamp b) (PrevHash b) (Hash b) n (RelationshipType b)
    (Receivers b) (TextData b) (AudioData b) (VideoData b) (Transactions b)
    (SubBlocks b) (Difficulty b) (Category b).

Definition set_Difficulty (d : Z) (b : Block) : Block :=
  mkBlock (Index b) (Timestamp b) (PrevHash b) (Hash b) (Nonce b) (RelationshipType b)
    (Receivers b) (TextData b) (AudioData b) (VideoData b) (Transactions b)
    (SubBlocks b) d (Category b).

Definition set_SubBlocks (l : list ptr) (b : Block) : Block :=
  mkBlock (Index b) (Timestamp b) (PrevHash b) (Hash b) (Nonce b) (RelationshipType b)
    (Receivers b) (TextData b) (AudioData b) (VideoData b) (Transactions b)
    l (Difficulty b) (Category b).

Definition serializeReceivers (receivers : list string) : string :=
  fmt_v_strings receivers.

(** The string [CalculateHash] formats and hashes.  The format has ten verbs
    for eleven arguments: [Category], the eleventh, is appended by [Sprintf]
    as an EXTRA argument. *)
Definition record (b : Block) : string :=
  fmt_d (Index b) +:+ fmt_d (Timestamp b) +:+ PrevHash b +:+ RelationshipType b
  +:+ TextData b +:+ AudioData b +:+ VideoData b
  +:+ serializeReceivers (Receivers b)
  +:+ fmt_d (Difficulty b) +:+ fmt_d (Nonce b)
  +:+ fmt_extra_string (Category b).

Definition CalculateHash (b : Block) : string := sha256_hex (record b).

(** ** Proof of work *)

(** The loop of [MineBlock], at most [fuel] hash attempts. *)
Fixpoint mine_loop (fuel : nat) (target : string) (b : Block) : result Block :=
  match fuel with
  | O => Timeout
  | S fuel' =>
      let b := set_Hash (CalculateHash b) b in
      if HasPrefix (Hash b) target then Ok b
      else mine_loop fuel' target (set_Nonce (add64 (Nonce b) 1) b)
  end.

Definition MineBlock (fuel : nat) (b : Block) (difficulty : Z) : result Block :=
  target ← Repeat "0" difficulty;
  mine_loop fuel target b.

(** [nowTx] and [nowBlock] are the two readings of the clock; the pool, which
    the Go code updates in place, is returned with the block. *)
Definition CreateBlock (fuel : nat) (nowTx nowBlock : Z) (index : Z) (prevHash : string)
    (relationshipType : string) (receivers : list string) (text audio video : string)
    (txPool : TransactionPool) (difficulty : Z) (minerAddress : string)
    (reward : float) : result (Block * TransactionPool) :=
  let coinbaseTx := NewTransaction nowTx "COINBASE" minerAddress reward 0 in
  let txPool := mkPool (coinbaseTx :: PoolTransactions txPool) in
  let block :=
    {| Index := index; Timestamp := nowBlock; PrevHash := prevHash; Hash := "";
       Nonce := 0; RelationshipType := relationshipType; Receivers := receivers;
       TextData := text; AudioData := audio; VideoData := video;
       Transactions := PoolTransactions txPool; SubBlocks := [];
       Difficulty := difficulty; Category := "main" |} in
  block ← MineBlock fuel block difficulty;
  Ok (block, txPool).

(** ** The chain (blockchain.go, prune.go) *)

Record Blockchain := mkBlockchain { Blocks : list Block }.

Definition NewBlockchain : Blockchain := mkBlockchain [].

(** What the program meets outside itself when it archives: the JSON encoder
    ([inl] the bytes, [inr] the error), the file system ([None] when the
    write succeeds, [Some] the error) and the clock. *)
Record World := mkWorld {
  jsonMarshalIndent : list Block -> string + string;
  writeFile : string -> string -> option string;
  unixNow : Z
}.

(** Result of a method of [Blockchain] that returns an [error]: the error
    ([None] is [nil]), the chain afterwards and the files written. *)
Record Pruned := mkPruned {
  pruneErr : option string;
  pruneChain : Blockchain;
  pruneFiles : list (string * string)
}.

(** Both slice expressions need [0 <= totalBlocks - retainCount <= totalBlocks]
    at the latest when the tail is taken: a negative [retainCount] panics. *)
Definition PruneAndArchive (w : World) (bc : Blockchain) (retainCount : Z)
    (archiveFilename : string) : result Pruned :=
  let totalBlocks := Z.of_nat (length (Blocks bc)) in
  if totalBlocks <=? retainCount then Ok (mkPruned None bc [])
  else if retainCount <? 0 then Panic "slice bounds out of range"
  else
    let archiveBlocks := take (Z.to_nat (totalBlocks - retainCount)) (Blocks bc) in
    match jsonMarshalIndent w archiveBlocks with
    | inr err =>
        Ok (mkPruned (Some ("failed to marshal archive blocks: " +:+ err)) bc [])
    | inl archiveData =>
        let archiveFile := archiveFilename +:+ "_" +:+ fmt_d (unixNow w) +:+ ".json" in
        match writeFile w archiveFile archiveData with
        | Some err =>
            Ok (mkPruned (Some ("failed to write archive file: " +:+ err)) bc [])
        | None =>
            Ok (mkPruned None
                  (mkBlockchain (drop (Z.to_nat (totalBlocks - retainCount)) (Blocks bc)))
                  [(archiveFile, archiveData)])
        end
    end.

Definition maxBlocks : Z := 100.

(** [AddBlock] returns nothing; the files its pruning wrote are kept with the
    chain.  A pruning error is printed and otherwise ignored. *)
Definition AddBlock (w : World) (bc : Blockchain) (b : Block)
    : result (Blockchain * list (string * string)) :=
  let bc := mkBlockchain (Blocks bc ++ [b]) in
  if Z.of_nat (length (Blocks bc)) >? maxBlocks then
    r ← PruneAndArchive w bc 50 "archive";
    Ok (pruneChain r, pruneFiles r)
  else Ok (bc, []).

Fixpoint CumulativeDifficulty_from (total : Z) (chain : list Block) : Z :=
  match chain with
  | [] => total
  | b :: rest => CumulativeDifficulty_from (add64 total (Difficulty b)) rest
  end.

Definition CumulativeDifficulty (chain : list Block) : Z :=
  CumulativeDifficulty_from 0 chain.

(** The loop of [IsValidChain] over the blocks after [previous]. *)
Fixpoint valid_links (previous : Block) (rest : list Block) : bool :=
  match rest with
  | [] => true
  | current :: rest' =>
      if negb (String.eqb (PrevHash current) (Hash previous)) then false
      else if negb (String.eqb (Hash current) (CalculateHash current)) then false
      else valid_links current rest'
  end.

Definition IsValidChain (chain : list Block) : bool :=
  match chain with
  | [] => false
  | genesis :: rest =>
      if negb (String.eqb (PrevHash genesis) "")
         || negb (String.eqb (Hash genesis) (CalculateHash genesis))
      then false
      else valid_links genesis rest
  end.

Definition ReplaceChain (bc : Blockchain) (newChain : list Block) : Blockchain * bool :=
  if negb (IsValidChain newChain) then (bc, false)
  else if CumulativeDifficulty newChain >? CumulativeDifficulty (Blocks bc)
       then (mkBlockchain newChain, true)
       else (bc, false).

(** ** Difficulty adjustment (difficulty.go) *)

(** [l[i]] on a slice: out of range panics. *)
Definition index {A} (l : list A) (i : Z) : result A :=
  if i <? 0 then Panic "index out of range"
  else match l !! Z.to_nat i with
       | Some x => Ok x
       | None => Panic "index out of range"
       end.

(** [time.Second], in nanoseconds. *)
Definition Second : Z := 1000000000.

(** The elapsed time and the expected time [AdjustDifficulty] compares, as
    [time.Duration] values. *)
Definition actualTime (start end_ : Block) : Z :=
  mul64 (sub64 (Timestamp end_) (Timestamp start)) Second.

Definition expectedTime (targetTimePerBlock adjustmentInterval : Z) : Z :=
  mul64 targetTimePerBlock adjustmentInterval.

Definition AdjustDifficulty (chain : list Block) (targetTimePerBlock : Z)
    (adjustmentInterval : Z) : result Z :=
  let n := Z.of_nat (length chain) in
  if n <? adjustmentInterval then
    last ← index chain (sub64 n 1);
    Ok (Difficulty last)
  else
    start ← index chain (sub64 n adjustmentInterval);
    end_ ← index chain (sub64 n 1);
    let actual := actualTime start end_ in
    let expected := expectedTime targetTimePerBlock adjustmentInterval in
    let currentDifficulty := Difficulty end_ in
    if actual <? div64 expected 2 then Ok (add64 currentDifficulty 1)
    else if (actual >? mul64 expected 2) && (currentDifficulty >? 1)
         then Ok (sub64 currentDifficulty 1)
         else Ok currentDifficulty.

(** ** Hybrid consensus (consensus.go) *)

(** [float64(n)] for an [int]: rounding to the nearest binary64 value. *)
Definition float_of_int (n : Z) : float :=
  SF2Prim (binary_normalize prec emax n 0 false).

(** [int(f)] for a [float64]: the fraction is discarded.  Go leaves the result
    open when the value does not fit; on amd64 it is the least [int64]. *)
Definition int_of_float (f : float) : Z :=
  match Prim2SF f with
  | S754_zero _ => 0
  | S754_finite s m e =>
      let mag := if 0 <=? e then Z.pos m * 2 ^ e else Z.pos m / 2 ^ (- e) in
      let v := if s then - mag else mag in
      if (- 2 ^ 63 <=? v) && (v <? 2 ^ 63) then v else - 2 ^ 63
  | _ => - 2 ^ 63
  end.

Record CandidateBlock := mkCandidate {
  CBlock : Block;
  Work : Z;
  ValidVotes : Z
}.

Record HybridConsensusManager := mkHCM {
  CandidateBlocks : list CandidateBlock;
  Stakeholders : gmap string float;
  VoteThreshold : float
}.

(** The constant 0.67 is converted to the nearest binary64 value,
    0x1.570a3d70a3d71p-1. *)
Definition NewHybridConsensusManager : HybridConsensusManager :=
  mkHCM [] ∅ 0x1.570a3d70a3d71p-1%float.

Definition ProposeBlock (hcm : HybridConsensusManager) (b : Block)
    : HybridConsensusManager :=
  let candidate := mkCandidate b (Nonce b) 0 in
  mkHCM (CandidateBlocks hcm ++ [candidate]) (Stakeholders hcm) (VoteThreshold hcm).

Definition add_votes (v : Z) (c : CandidateBlock) : CandidateBlock :=
  mkCandidate (CBlock c) (Work c) (add64 (ValidVotes c) v).

(** The second component is what the call prints. *)
Definition CastVote (hcm : HybridConsensusManager) (candidateIndex : Z)
    (validator : string) (vote : bool) : HybridConsensusManager * list string :=
  if (candidateIndex <? 0) || (candidateIndex >=? Z.of_nat (length (CandidateBlocks hcm)))
  then (hcm, ["Invalid candidate index"])
  else if vote then
    match Stakeholders hcm !! validator with
    | None => (hcm, ["Validator " +:+ validator +:+ " not found"])
    | Some stake =>
        (mkHCM (alter (add_votes (int_of_float (stake * 100)%float))
                      (Z.to_nat candidateIndex) (CandidateBlocks hcm))
               (Stakeholders hcm) (VoteThreshold hcm), [])
    end
  else (hcm, []).

Fixpoint first_at_least (threshold : Z) (cs : list CandidateBlock) : option Block :=
  match cs with
  | [] => None
  | candidate :: rest =>
      if ValidVotes candidate >=? threshold then Some (CBlock candidate)
      else first_at_least threshold rest
  end.

Definition finalize_threshold (hcm : HybridConsensusManager) (totalStake : Z) : Z :=
  int_of_float (float_of_int totalStake * VoteThreshold hcm)%float.

Definition FinalizeBlock (hcm : HybridConsensusManager) (totalStake : Z) : option Block :=
  first_at_least (finalize_threshold hcm totalStake) (CandidateBlocks hcm).

(** ** Ledger (ledger.go) *)

(** [l[k]] on a Go map: the zero value when the key is absent. *)
Definition balance (l : gmap string float) (k : string) : float :=
  default 0%float (l !! k).

(** The second component is the error returned ([None] is [nil]). *)
Definition ProcessTransaction (l : gmap string float) (tx : Transaction)
    : gmap string float * option string :=
  let senderBalance := balance l (Sender tx) in
  if (senderBalance <? Amount tx)%float then (l, Some "insufficient funds")
  else
    let l := <[Sender tx := (balance l (Sender tx) - Amount tx)%float]> l in
    let l := <[Recipient tx := (balance l (Recipient tx) + Amount tx)%float]> l in
    (l, None).

Definition ProcessCoinbaseTransaction (l : gmap string float) (recipient : string)
    (reward : float) : gmap string float :=
  <[recipient := (balance l recipient + reward)%float]> l.

(** ** Sub-blocks, through the block pointers (blockchain.go) *)

(** The blocks in memory, by address, and the chain as the slice of
    addresses [bc.Blocks].  An address the store does not hold plays the
    nil pointer. *)
Record BlockStore := mkStore {
  heap : gmap ptr Block;
  chain : list ptr
}.

Definition deref (h : gmap ptr Block) (p : ptr) : result Block :=
  match h !! p with
  | Some b => Ok b
  | None => Panic "nil pointer dereference"
  end.

(** [&Block{...}]: a block at an address not in use. *)
Definition alloc (h : gmap ptr Block) (b : Block) : gmap ptr Block * ptr :=
  let p := fresh (dom h) in (<[p := b]> h, p).

(** [now] is the clock reading; the second component is what is printed. *)
Definition UpdateBlockWithSubBlockEx (fuel : nat) (now : Z) (bc : BlockStore)
    (parentIndex : Z) (newText newAudio newVideo subBlockCategory : string)
    : result (BlockStore * list string) :=
  if (parentIndex <? 0) || (parentIndex >=? Z.of_nat (length (chain bc)))
  then Ok (bc, ["Invalid parent index"])
  else
    parentPtr ← index (chain bc) parentIndex;
    parentBlock ← deref (heap bc) parentPtr;
    let subBlock :=
      {| Index := Index parentBlock; Timestamp := now; PrevHash := Hash parentBlock;
         Hash := ""; Nonce := 0; RelationshipType := RelationshipType parentBlock;
         Receivers := Receivers parentBlock;
         TextData := newText; AudioData := newAudio; VideoData := newVideo;
         Transactions := []; SubBlocks := []; Difficulty := 1;
         Category := subBlockCategory |} in
    subBlock ← MineBlock fuel subBlock (Difficulty subBlock);
    let subBlock := set_Hash (CalculateHash subBlock) subBlock in
    let (h, subPtr) := alloc (heap bc) subBlock in
    let h := <[parentPtr := set_SubBlocks (SubBlocks parentBlock ++ [subPtr]) parentBlock]> h in
    Ok (mkStore h (chain bc), []).

Definition UpdateBlockWithSubBlock (fuel : nat) (now : Z) (bc : BlockStore)
    (parentIndex : Z) (newText newAudio newVideo subBlockCategory : string)
    : result (BlockStore * list string) :=
  if (parentIndex <? 0) || (parentIndex >=? Z.of_nat (length (chain bc)))
  then Ok (bc, ["Invalid parent index"])
  else
    parentPtr ← index (chain bc) parentIndex;
    parentBlock ← deref (heap bc) parentPtr;
    let subBlock :=
      {| Index := Index parentBlock; Timestamp := now; PrevHash := Hash parentBlock;
         Hash := ""; Nonce := 0; RelationshipType := RelationshipType parentBlock;
         Receivers := Receivers parentBlock;
         TextData := newText; AudioData := newAudio; VideoData := newVideo;
         Transactions := []; SubBlocks := []; Difficulty := 1;
         Category := subBlockCategory |} in
    subBlock ← MineBlock fuel subBlock (Difficulty subBlock);
    let subBlock := set_Hash (CalculateHash subBlock) subBlock in
    let (h, subPtr) := alloc (heap bc) subBlock in
    let h := <[parentPtr := set_SubBlocks (SubBlocks parentBlock ++ [subPtr]) parentBlock]> h in
    Ok (mkStore h (chain bc), []).

(** ** P2P: a new block from a peer (p2p.go) *)

(** What [json.Unmarshal] makes of the message data: an error, a nil pointer
    (the JSON value null) or a block. *)
Inductive Unmarshalled :=
| UnmarshalError (err : string)
| UnmarshalNil
| UnmarshalBlock (b : Block).

Record Node := mkNode {
  Address : string;
  Peers : list string;
  NodeBlockchain : Blockchain
}.

(** The second component is the chain handed to [BroadcastChainUpdate], if
    the call was made. *)
Definition handleNewBlock (n : Node) (data : Unmarshalled)
    : result (Node * option (list Block)) :=
  match data with
  | UnmarshalError _ => Ok (n, None)
  | _ =>
      let blocks := Blocks (NodeBlockchain n) in
      lastBlock ← index blocks (sub64 (Z.of_nat (length blocks)) 1);
      match data with
      | UnmarshalBlock newBlock =>
          if String.eqb (PrevHash newBlock) (Hash lastBlock)
             && String.eqb (Hash newBlock) (CalculateHash newBlock)
          then
            let n := mkNode (Address n) (Peers n) (mkBlockchain (blocks ++ [newBlock])) in
            Ok (n, Some (Blocks (NodeBlockchain n)))
          else Ok (n, None)
      | _ => Panic "nil pointer dereference"
      end
  end.

(** ** Notions of the specification *)

(** The sum of the difficulty fields of a chain, in unbounded integers. *)
Definition difficulty_sum (chain : list Block) : Z :=
  fold_right Z.add 0 (List.map Difficulty chain).

(** ** Concrete inputs used by the examples *)

(** A block with the given index, receivers and nonce, and fixed payloads. *)
Definition sample_block (i : Z) (receivers : list string) (nonce : Z) : Block :=
  {| Index := i; Timestamp := 1700000000; PrevHash := ""; Hash := "";
     Nonce := nonce; RelationshipType := "one-to-one"; Receivers := receivers;
     TextData := "Text"; AudioData := "Audio"; VideoData := "Video";
     Transactions := []; SubBlocks := []; Difficulty := 0; Category := "main" |}.

(** The manager of the quorum scenario: stakes A:50, B:30, C:20 and one
    proposed candidate. *)
Definition quorum_candidate : Block := sample_block 1 ["ReceiverA"] 0.

Definition quorum_manager : HybridConsensusManager :=
  ProposeBlock
    (mkHCM [] (<["A" := 50%float]> (<["B" := 30%float]> (<["C" := 20%float]> ∅)))
           (VoteThreshold NewHybridConsensusManager))
    quorum_candidate.

Definition approve (validator : string) (hcm : HybridConsensusManager)
    : HybridConsensusManager :=
  fst (CastVote hcm 0 validator true).

(** The nonce after [k] increments, and the block [MineBlock] leaves when
    its [k+1]-th hash attempt is the first to succeed: the nonce advanced
    [k] times from the nonce the block came with, the hash recomputed. *)
Definition nonce_after (k : nat) (n : Z) : Z :=
  Nat.iter k (fun n => add64 n 1) n.

Definition mined (k : nat) (b : Block) : Block :=
  let b := set_Nonce (nonce_after k (Nonce b)) b in
  set_Hash (CalculateHash b) b.

(** The hash of the [j+1]-th attempt of a search that starts at [b]. *)
Definition attempt_hash (j : nat) (b : Block) : string :=
  CalculateHash (set_Nonce (nonce_after j (Nonce b)) b).

(** Building a chain the way the node does: every block comes from
    [CreateBlock], the first with an empty previous hash and index 0, each
    later one with the hash of the block before it and the next index, and
    every block is handed to [AddBlock]. *)
Record BlockRequest := mkRequest {
  reqNowTx : Z;
  reqNowBlock : Z;
  reqRelationshipType : string;
  reqReceivers : list string;
  reqText : string;
  reqAudio : string;
  reqVideo : string;
  reqPool : TransactionPool;
  reqDifficulty : Z;
  reqMiner : string;
  reqReward : float;
  reqWorld : World
}.

Fixpoint build_chain (fuel : nat) (reqs : list BlockRequest) (index : Z)
    (prevHash : string) (bc : Blockchain)
    : result (Blockchain * list (string * string)) :=
  match reqs with
  | [] => Ok (bc, [])
  | r :: rest =>
      created ← CreateBlock fuel (reqNowTx r) (reqNowBlock r) index prevHash
                  (reqRelationshipType r) (reqReceivers r)
                  (reqText r) (reqAudio r) (reqVideo r) (reqPool r)
                  (reqDifficulty r) (reqMiner r) (reqReward r);
      added ← AddBlock (reqWorld r) bc (fst created);
      built ← build_chain fuel rest (add64 index 1) (Hash (fst created)) (fst added);
      Ok (fst built, snd added ++ snd built)
  end.

Definition build (fuel : nat) (reqs : list BlockRequest)
    : result (Blockchain * list (string * string)) :=
  build_chain fuel reqs 0 "" NewBlockchain.

(** A world in which archiving succeeds. *)
Definition obliging_world : World :=
  {| jsonMarshalIndent := fun _ => inl "[]";
     writeFile := fun _ _ => None;
     unixNow := 1700000000 |}.

(** A request for a block of difficulty 0 with an empty pool. *)
Definition easy_request : BlockRequest :=
  {| reqNowTx := 1700000000; reqNowBlock := 1700000000;
     reqRelationshipType := "one-to-one"; reqReceivers := ["ReceiverA"];
     reqText := "Text"; reqAudio := "Audio"; reqVideo := "Video";
     reqPool := mkPool []; reqDifficulty := 0; reqMiner := "Miner1";
     reqReward := 12.5%float; reqWorld := obliging_world |}.

(** Whether a build returned a chain that [IsValidChain] rejects. *)
Definition built_invalid (r : result (Blockchain * list (string * string))) : bool :=
  match r with
  | Ok (bc, _) => negb (IsValidChain (Blocks bc))
  | _ => false
  end.

(** The invariant of [build_chain]: the chain so far is empty and the next
    previous hash is empty, or it is valid and the next previous hash is the
    hash of its tip. *)
Definition linked (prevHash : string) (chain : list Block) : Prop :=
  match chain with
  | [] => prevHash = ""
  | g :: rest => IsValidChain chain = true /\ prevHash = Hash (List.last rest g)
  end.

(** The fields [CalculateHash] reads. *)
Inductive HashedField :=
| FIndex | FTimestamp | FPrevHash | FRelationshipType
| FTextData | FAudioData | FVideoData | FReceivers
| FDifficulty | FNonce | FCategory.

(** Two blocks agree on a hashed field. *)
Definition same_field (f : HashedField) (b1 b2 : Block) : Prop :=
  match f with
  | FIndex => Index b1 = Index b2
  | FTimestamp => Timestamp b1 = Timestamp b2
  | FPrevHash => PrevHash b1 = PrevHash b2
  | FRelationshipType => RelationshipType b1 = RelationshipType b2
  | FTextData => TextData b1 = TextData b2
  | FAudioData => AudioData b1 = AudioData b2
  | FVideoData => VideoData b1 = VideoData b2
  | FReceivers => Receivers b1 = Receivers b2
  | FDifficulty => Difficulty b1 = Difficulty b2
  | FNonce => Nonce b1 = Nonce b2
  | FCategory => Category b1 = Category b2
  end.

(** A block stamped with a time and a difficulty, for the timing examples. *)
Definition timed_block (timestamp difficulty : Z) : Block :=
  set_Difficulty difficulty
    {| Index := 0; Timestamp := timestamp; PrevHash := ""; Hash := "";
       Nonce := 0; RelationshipType := ""; Receivers := [];
       TextData := ""; AudioData := ""; VideoData := "";
       Transactions := []; SubBlocks := []; Difficulty := 0; Category := "main" |}.


(** A store of two linked blocks at the addresses 0 and 1. *)
Definition sample_store : BlockStore :=
  let genesis := mined 0 (sample_block 0 ["ReceiverA"] 0) in
  let second :=
    mined 0 (mkBlock 1 1700000000 (Hash genesis) "" 0 "one-to-many"
               ["ReceiverA"; "ReceiverB"] "Text" "Audio" "Video" [] [] 0 "main") in
  mkStore (<[1%nat := second]> (<[0%nat := genesis]> ∅)) [0%nat; 1%nat].

(** The exact value of a finite [float64], in units of [2^-1074] (the least
    positive binary64 value, so every finite value is a whole number of
    units); [None] for an infinity or a NaN. *)
Definition float_units (f : float) : option Z :=
  match Prim2SF f with
  | S754_zero _ => Some 0
  | S754_finite s m e =>
      Some ((if s then -1 else 1) * (Z.pos m * 2 ^ (e + 1074)))
  | _ => None
  end.

Definition units (f : float) : Z := default 0 (float_units f).

(** The total of the balances of a ledger, exactly (a balance that is not
    finite counts for nothing). *)
Definition total_units (l : gmap string float) : Z :=
  map_fold (fun _ v acc => units v + acc) 0 l.

(** A floating-point sum or difference that is finite and not rounded. *)
Definition exact_add (x y : float) : bool :=
  match float_units x, float_units y, float_units (x + y)%float with
  | Some a, Some b, Some c => c =? a + b
  | _, _, _ => false
  end.

Definition exact_sub (x y : float) : bool :=
  match float_units x, float_units y, float_units (x - y)%float with
  | Some a, Some b, Some c => c =? a - b
  | _, _, _ => false
  end.

(** The two ways the ledger is changed. *)
Inductive LedgerOp :=
| Transfer (tx : Transaction)
| Coinbase (recipient : string) (reward : float).

(** A sequence of operations in which no transaction is rejected ([None] as
    soon as one is). *)
Fixpoint apply_ops (l : gmap string float) (ops : list LedgerOp)
    : option (gmap string float) :=
  match ops with
  | [] => Some l
  | Transfer tx :: rest =>
      match ProcessTransaction l tx with
      | (l', None) => apply_ops l' rest
      | (_, Some _) => None
      end
  | Coinbase recipient reward :: rest =>
      apply_ops (ProcessCoinbaseTransaction l recipient reward) rest
  end.

(** Every debit and credit of the sequence is computed without rounding. *)
Fixpoint exact_ops (l : gmap string float) (ops : list LedgerOp) : bool :=
  match ops with
  | [] => true
  | Transfer tx :: rest =>
      let debited :=
        <[Sender tx := (balance l (Sender tx) - Amount tx)%float]> l in
      exact_sub (balance l (Sender tx)) (Amount tx)
      && exact_add (balance debited (Recipient tx)) (Amount tx)
      && exact_ops (fst (ProcessTransaction l tx)) rest
  | Coinbase recipient reward :: rest =>
      exact_add (balance l recipient) reward
      && exact_ops (ProcessCoinbaseTransaction l recipient reward) rest
  end.

(** The coinbase rewards of a sequence, exactly. *)
Fixpoint coinbase_units (ops : list LedgerOp) : Z :=
  match ops with
  | [] => 0
  | Transfer _ :: rest => coinbase_units rest
  | Coinbase _ reward :: rest => units reward + coinbase_units rest
  end.

(** A ledger in which A holds 10^16, and a transfer of 1 from A to B. *)
Definition rich_ledger : gmap string float := <["A" := 1e16%float]> ∅.

Definition one_to_B : LedgerOp := Transfer (NewTransaction 0 "A" "B" 1%float 0).

(** A ledger in which A holds 100, a transfer of 40 to B and a reward of
    12.5 for the miner. *)
Definition small_ledger : gmap string float := <["A" := 100%float]> ∅.

Definition small_ops : list LedgerOp :=
  [Transfer (NewTransaction 0 "A" "B" 40%float 0); Coinbase "Miner1" 12.5%float].

(** The chains of the replacement test: a genesis block mined at difficulty
    3, a second block mined at difficulty 3 on top of it, and the same
    second block with its difficulty raised to 5 and its hash recomputed. *)
Definition created (r : result (Block * TransactionPool)) : Block :=
  match r with
  | Ok (b, _) => b
  | _ => sample_block 0 [] 0
  end.

Definition fork_genesis : Block :=
  Eval vm_compute in
    created (CreateBlock 100 1700000000 1700000000 0 "" "one-to-one"
               ["ReceiverA"] "Text" "Audio" "Video" (mkPool []) 3 "Miner1"
               12.5%float).

Definition fork_local2 : Block :=
  Eval vm_compute in
    created (CreateBlock 100 1700000044 1700000044 1 (Hash fork_genesis)
               "one-to-many" ["ReceiverA"; "ReceiverB"] "Text" "Audio" "Video"
               (mkPool []) 3 "Miner1" 12.5%float).

Definition fork_incoming2 : Block :=
  Eval vm_compute in
    (let b := set_Difficulty 5 fork_local2 in set_Hash (CalculateHash b) b).

(** ** Lookup by hash (blockchain.go) *)

(** [inl] the block found, [inr] the error. *)
Definition GetBlockFromChain (bc : Blockchain) (hash : string) : Block + string :=
  match List.find (fun b => String.eqb (Hash b) hash) (Blocks bc) with
  | Some b => inl b
  | None => inr "block not found"
  end.

(** ** Headers for light clients (light.go) *)

Record LightBlockHeader := mkHeader {
  HeaderIndex : Z;
  HeaderTimestamp : Z;
  HeaderPrevHash : string;
  HeaderHash : string;
  HeaderDifficulty : Z;
  HeaderNonce : Z
}.

Definition ExtractHeaders (bc : Blockchain) : list LightBlockHeader :=
  List.map (fun blk =>
              {| HeaderIndex := Index blk; HeaderTimestamp := Timestamp blk;
                 HeaderPrevHash := PrevHash blk; HeaderHash := Hash blk;
                 HeaderDifficulty := Difficulty blk; HeaderNonce := Nonce blk |})
           (Blocks bc).

(** ** Shards (sharding.go) *)

Record Shard := mkShard {
  ID : Z;
  ShardBlockchain : Blockchain
}.

Record BeaconChain := mkBeaconChain { Shards : list Shard }.

(** [make] panics on a negative length; memory is taken to suffice for any
    other. *)
Definition NewBeaconChain (numShards : Z) : result BeaconChain :=
  if numShards <? 0 then Panic "makeslice: len out of range"
  else
    Ok (mkBeaconChain
          (List.map (fun i => mkShard (Z.of_nat i) NewBlockchain)
                    (seq 0 (Z.to_nat numShards)))).

(** The first byte of the digest of the sender, modulo the number of shards;
    [%] panics on a zero divisor. *)
Definition AssignShard (bc : BeaconChain) (tx : Transaction) : result Z :=
  let hash := SHA256.sum256 (bytes_of_string (Sender tx)) in
  let shards := Z.of_nat (length (Shards bc)) in
  if shards =? 0 then Panic "integer divide by zero"
  else Ok (Z.rem (nth 0 hash 0) shards).

(** ** P2P: a chain from a peer (p2p.go) *)

(** What [json.Unmarshal] makes of the data of a chain message: an error, or
    a slice of block pointers, with a nil pointer where the JSON array holds
    null. *)
Inductive UnmarshalledChain :=
| UnmarshalChainError (err : string)
| UnmarshalChain (incomingChain : list (option Block)).

(** [IsValidChain] on such a slice: a block is read through its pointer when
    the checks reach it. *)
Fixpoint valid_links_ptrs (previous : Block) (rest : list (option Block))
    : result bool :=
  match rest with
  | [] => Ok true
  | None :: _ => Panic "nil pointer dereference"
  | Some current :: rest' =>
      if negb (String.eqb (PrevHash current) (Hash previous)) then Ok false
      else if negb (String.eqb (Hash current) (CalculateHash current)) then Ok false
      else valid_links_ptrs current rest'
  end.

Definition IsValidChain_ptrs (chain : list (option Block)) : result bool :=
  match chain with
  | [] => Ok false
  | None :: _ => Panic "nil pointer dereference"
  | Some genesis :: rest =>
      if negb (String.eqb (PrevHash genesis) "")
         || negb (String.eqb (Hash genesis) (CalculateHash genesis))
      then Ok false
      else valid_links_ptrs genesis rest
  end.

(** The second component is what the call prints.  [ReplaceChain] is reached
    only with a slice [IsValidChain] has accepted, which holds no nil
    pointer: it is given the blocks pointed to. *)
Definition handleChainUpdate (n : Node) (data : UnmarshalledChain)
    : result (Node * list string) :=
  match data with
  | UnmarshalChainError err =>
      Ok (n, ["Error unmarshalling chain update: " +:+ err])
  | UnmarshalChain incomingChain =>
      valid ← IsValidChain_ptrs incomingChain;
      if valid : bool then
        let (bc, replaced) := ReplaceChain (NodeBlockchain n) (omap id incomingChain) in
        if replaced : bool then
          Ok (mkNode (Address n) (Peers n) bc,
              ["Local chain replaced with received chain (higher cumulative difficulty)."])
        else
          Ok (mkNode (Address n) (Peers n) bc,
              ["Received chain valid but not stronger than the current chain."])
      else Ok (n, ["Received invalid chain update."])
  end.

(** ** P2P: peer lists (p2p.go) *)

Fixpoint contains (slice : list string) (item : string) : bool :=
  match slice with
  | [] => false
  | s :: rest => if String.eqb s item then true else contains rest item
  end.

(** What [json.Unmarshal] makes of the data of a peer-list message. *)
Inductive UnmarshalledPeers :=
| UnmarshalPeersError (err : string)
| UnmarshalPeers (receivedPeers : list string).

(** One turn of the loop of [handlePeerList], on the peers known so far and
    the flag [updated]. *)
Definition add_peer (address : string) (st : list string * bool) (peer : string)
    : list string * bool :=
  if negb (String.eqb peer address) && negb (contains (fst st) peer)
  then (fst st ++ [peer], true)
  else st.

(** The second component is what the call prints. *)
Definition handlePeerList (n : Node) (data : UnmarshalledPeers) : Node * list string :=
  match data with
  | UnmarshalPeersError err => (n, ["Error unmarshalling peer list: " +:+ err])
  | UnmarshalPeers receivedPeers =>
      let st := fold_left (add_peer (Address n)) receivedPeers (Peers n, false) in
      (mkNode (Address n) (fst st) (NodeBlockchain n),
       if snd st then ["Updated peer list: " +:+ fmt_v_strings (fst st)] else [])
  end.

(** ** The transaction pool (transaction.go) *)

Definition AddTransaction (tp : TransactionPool) (tx : Transaction) : TransactionPool :=
  mkPool (PoolTransactions tp ++ [tx]).

Definition Clear (tp : TransactionPool) : TransactionPool := mkPool [].

(** ** Auto-mining (main.go) *)

(** What one turn of the auto-mining loop works on: the chain, the pool and
    the ledger of the node. *)
Record MinerState := mkMiner {
  minerChain : Blockchain;
  minerPool : TransactionPool;
  minerLedger : gmap string float
}.

(** One turn of the loop: nothing when the pool is empty, else a block is
    created on the tip, added, the miner rewarded and the pool cleared.
    The files are those [AddBlock] wrote. *)
Definition autoMine (fuel : nat) (w : World) (nowTx nowBlock : Z)
    (textData audioData videoData : string) (difficulty : Z)
    (minerAddress : string) (reward : float) (st : MinerState)
    : result (MinerState * list (string * string)) :=
  if Z.of_nat (length (PoolTransactions (minerPool st))) >? 0 then
    let blocks := Blocks (minerChain st) in
    prevHash ←
      (if Z.of_nat (length blocks) >? 0
       then tip ← index blocks (sub64 (Z.of_nat (length blocks)) 1); Ok (Hash tip)
       else Ok "");
    created ← CreateBlock fuel nowTx nowBlock (Z.of_nat (length blocks)) prevHash
                "one-to-many" ["ReceiverA"; "ReceiverB"; "ReceiverC"]
                textData audioData videoData (minerPool st) difficulty
                minerAddress reward;
    added ← AddBlock w (minerChain st) (fst created);
    Ok (mkMiner (fst added) (Clear (snd created))
                (ProcessCoinbaseTransaction (minerLedger st) minerAddress reward),
        snd added)
  else Ok (st, []).

(** ** Notions of the further properties *)

(** The digits [hex.EncodeToString] writes. *)
Definition is_hex_digit (c : ascii) : bool :=
  existsb (Ascii.eqb c) (list_ascii_of_string "0123456789abcdef").

(** A block whose stored hash is the hash of its fields. *)
Definition hash_valid (b : Block) : Prop := Hash b = CalculateHash b.

(** A validator casting [k] approving votes for the same candidate, one
    call of [CastVote] after the other. *)
Definition vote_times (k : nat) (hcm : HybridConsensusManager) (candidateIndex : Z)
    (validator : string) : HybridConsensusManager :=
  Nat.iter k (fun hcm => fst (CastVote hcm candidateIndex validator true)) hcm.

(** The blocks a chain of addresses points to ([None] when one of them is
    nil). *)
Definition chain_blocks (bc : BlockStore) : option (list Block) :=
  mapM (fun p => heap bc !! p) (chain bc).

(** Two blocks that differ at most in their sub-blocks. *)
Definition same_but_SubBlocks (b b' : Block) : Prop :=
  b' = set_SubBlocks (SubBlocks b') b.

(** * Properties *)

(** ** Test vectors of the hash function *)

Example sha256_abc :
  sha256_hex "abc" = "ba7816bf8f01cfea414140de5dae2223b00361a396177a9cb410ff61f20015ad".
Proof. vm_compute. reflexivity. Qed.

Example sha256_empty :
  sha256_hex "" = "e3b0c44298fc1c149afbf4c8996fb92427ae41e4649b934ca495991b7852b855".
Proof. vm_compute. reflexivity. Qed.

Example sha256_two_blocks :
  sha256_hex "abcdbcdecdefdefgefghfghighijhijkijkljklmklmnlmnomnopnopq"
  = "248d6a61d20638b8e5c026930c3e6039a33ce45964ff2167f6ecedd419db06c1".
Proof. vm_compute. reflexivity. Qed.

(** ** Machine integers *)

Lemma wrap64_id z : in_int64 z -> wrap64 z = z.
Proof.
  unfold in_int64, wrap64. intros H.
  rewrite Z.mod_small by lia. lia.
Qed.

Lemma wrap64_range z : in_int64 (wrap64 z).
Proof.
  unfold in_int64, wrap64.
  pose proof (Z.mod_pos_bound (z + 2 ^ 63) (2 ^ 64) ltac:(lia)). lia.
Qed.

(** ** Consensus *)

Section Finalize.

Variable threshold : Z.

(** [first_at_least] is first-match: everything before the candidate it
    returns is below the threshold. *)
Lemma first_at_least_Some cs b :
  first_at_least threshold cs = Some b <->
  exists pre c post,
    cs = pre ++ c :: post /\ CBlock c = b /\ threshold <= ValidVotes c
    /\ Forall (fun c' => ValidVotes c' < threshold) pre.
Proof.
  induction cs as [|c0 cs IH]; simpl.
  - split; [discriminate|]. intros (pre & c & post & E & _). by destruct pre.
  - destruct (Z.geb_spec (ValidVotes c0) threshold) as [Hge|Hlt].
    + split.
      * intros [= <-]. exists [], c0, cs. repeat split; [lia|constructor].
      * intros (pre & c & post & E & Hb & Hc & Hpre).
        destruct pre as [|c1 pre]; simpl in E; injection E as -> E.
        -- by rewrite Hb.
        -- inversion Hpre; subst. lia.
    + rewrite IH. split.
      * intros (pre & c & post & -> & Hb & Hc & Hpre).
        exists (c0 :: pre), c, post. repeat split; auto.
      * intros (pre & c & post & E & Hb & Hc & Hpre).
        destruct pre as [|c1 pre]; simpl in E; injection E as -> E.
        -- lia.
        -- inversion Hpre; subst. exists pre, c, post. auto.
Qed.

Lemma first_at_least_None cs :
  first_at_least threshold cs = None <->
  Forall (fun c => ValidVotes c < threshold) cs.
Proof.
  induction cs as [|c0 cs IH]; simpl.
  - split; [constructor|done].
  - destruct (Z.geb_spec (ValidVotes c0) threshold) as [Hge|Hlt].
    + split; [discriminate|]. intros H. inversion H; subst. lia.
    + rewrite IH. split.
      * intros H. by constructor.
      * intros H. by inversion H.
Qed.

End Finalize.

(** [FinalizeBlock] returns the first candidate, in proposal order, whose
    tally reaches [int(float64(totalStake) * VoteThreshold)], and nil when
    there is none. *)
Lemma FinalizeBlock_first_match hcm totalStake :
  let threshold := finalize_threshold hcm totalStake in
  (forall b, FinalizeBlock hcm totalStake = Some b <->
     exists pre c post,
       CandidateBlocks hcm = pre ++ c :: post /\ CBlock c = b
       /\ threshold <= ValidVotes c
       /\ Forall (fun c' => ValidVotes c' < threshold) pre)
  /\ (FinalizeBlock hcm totalStake = None <->
      Forall (fun c => ValidVotes c < threshold) (CandidateBlocks hcm)).
Proof.
  split; [intros b; apply first_at_least_Some | apply first_at_least_None].
Qed.

(** C1.  With stakes A:50, B:30, C:20 and one candidate, the threshold of
    [FinalizeBlock 100] is 67 while an approving vote adds [stake * 100]:
    after the votes of B and C alone the tally is 5000 and the candidate IS
    returned, and after the votes of A and B the tally is 8000 and it is
    returned too. *)
Theorem FinalizeBlock_quorum_scenario :
  let afterBC := approve "C" (approve "B" quorum_manager) in
  let afterAB := approve "B" (approve "A" quorum_manager) in
  finalize_threshold quorum_manager 100 = 67
  /\ List.map ValidVotes (CandidateBlocks afterBC) = [5000]
  /\ FinalizeBlock afterBC 100 = Some quorum_candidate
  /\ List.map ValidVotes (CandidateBlocks afterAB) = [8000]
  /\ FinalizeBlock afterAB 100 = Some quorum_candidate.
Proof. vm_compute. repeat split; reflexivity. Qed.

(** ** Fork choice *)

(** [CumulativeDifficulty] is the plain sum of the difficulty fields whenever
    the difficulties are non-negative and their sum fits an [int]. *)
Lemma CumulativeDifficulty_from_sum chain total :
  Forall (fun b => 0 <= Difficulty b) chain ->
  0 <= total ->
  total + difficulty_sum chain < 2 ^ 63 ->
  CumulativeDifficulty_from total chain = total + difficulty_sum chain.
Proof.
  intros Hpos. revert total.
  induction Hpos as [|b chain Hb Hpos IH]; intros total Ht Hlt;
    unfold difficulty_sum in *;
    cbn [CumulativeDifficulty_from fold_right List.map] in *.
  - lia.
  - assert (Hs : 0 <= fold_right Z.add 0 (List.map Difficulty chain)).
    { clear -Hpos. induction Hpos; cbn [fold_right List.map]; lia. }
    unfold add64. rewrite wrap64_id by (unfold in_int64; lia).
    rewrite IH; lia.
Qed.

Lemma CumulativeDifficulty_sum chain :
  Forall (fun b => 0 <= Difficulty b) chain ->
  difficulty_sum chain < 2 ^ 63 ->
  CumulativeDifficulty chain = difficulty_sum chain.
Proof.
  intros Hpos Hlt. unfold CumulativeDifficulty.
  rewrite CumulativeDifficulty_from_sum; auto; lia.
Qed.


(** The replacement test of the repository: the chain of weight 8 replaces
    the chain of weight 6 that shares its genesis block, and not the other
    way round. *)
Example ReplaceChain_heavier :
  (exists pool,
     CreateBlock 100 1700000000 1700000000 0 "" "one-to-one" ["ReceiverA"]
       "Text" "Audio" "Video" (mkPool []) 3 "Miner1" 12.5%float
     = Ok (fork_genesis, pool))
  /\ (exists pool,
        CreateBlock 100 1700000044 1700000044 1 (Hash fork_genesis)
          "one-to-many" ["ReceiverA"; "ReceiverB"] "Text" "Audio" "Video"
          (mkPool []) 3 "Miner1" 12.5%float
        = Ok (fork_local2, pool))
  /\ leading_zeros (Hash fork_genesis) = 3%nat
  /\ CumulativeDifficulty [fork_genesis; fork_local2] = 6
  /\ CumulativeDifficulty [fork_genesis; fork_incoming2] = 8
  /\ ReplaceChain (mkBlockchain [fork_genesis; fork_local2])
       [fork_genesis; fork_incoming2]
     = (mkBlockchain [fork_genesis; fork_incoming2], true)
  /\ ReplaceChain (mkBlockchain [fork_genesis; fork_incoming2])
       [fork_genesis; fork_local2]
     = (mkBlockchain [fork_genesis; fork_incoming2], false).
Proof.
  split; [eexists; vm_compute; reflexivity|].
  split; [eexists; vm_compute; reflexivity|].
  repeat split; vm_compute; reflexivity.
Qed.

(** ** Hashing and proof of work *)

Lemma CalculateHash_set_Hash h b :
  CalculateHash (set_Hash h b) = CalculateHash b.
Proof. reflexivity. Qed.

Lemma set_Hash_set_Nonce_set_Hash h h' n b :
  set_Hash h (set_Nonce n (set_Hash h' b)) = set_Hash h (set_Nonce n b).
Proof. reflexivity. Qed.

Lemma set_Nonce_set_Nonce n n' b :
  set_Nonce n (set_Nonce n' b) = set_Nonce n b.
Proof. reflexivity. Qed.

Lemma nonce_after_S k n : nonce_after (S k) n = add64 (nonce_after k n) 1.
Proof. reflexivity. Qed.

Lemma nonce_after_shift k n :
  nonce_after k (add64 n 1) = nonce_after (S k) n.
Proof.
  induction k as [|k IH]; [reflexivity|].
  rewrite nonce_after_S, IH. reflexivity.
Qed.

Lemma prefix_String a s1 b s2 :
  String.prefix (String a s1) (String b s2)
  = if ascii_dec a b then String.prefix s1 s2 else false.
Proof. reflexivity. Qed.

Lemma leading_zeros_String c s :
  leading_zeros (String c s)
  = if ascii_dec "0" c then S (leading_zeros s) else O.
Proof.
  destruct (ascii_dec "0" c) as [<-|Hne]; [reflexivity|].
  destruct c as [[] [] [] [] [] [] [] []]; try reflexivity.
  by destruct Hne.
Qed.

(** A string starts with [n] zeros exactly when it has at least [n]
    leading zeros. *)
Lemma HasPrefix_zeros s n :
  HasPrefix s (repeat_string "0" n) = true <-> (n <= leading_zeros s)%nat.
Proof.
  unfold HasPrefix. revert s.
  induction n as [|n IH]; intros s.
  - split; [lia|]. by destruct s.
  - change (repeat_string "0" (S n)) with (String "0" (repeat_string "0" n)).
    destruct s as [|c s].
    + split; [discriminate|]. cbn. lia.
    + rewrite prefix_String, leading_zeros_String.
      destruct (ascii_dec "0" c) as [_|_].
      * rewrite IH. lia.
      * split; [discriminate|lia].
Qed.

(** The search loop: the block returned is [mined k] of the block given, for
    the first [k] whose hash has the target as a prefix. *)
Lemma mine_loop_Ok fuel target b b' :
  mine_loop fuel target b = Ok b' ->
  exists k, (k < fuel)%nat /\ b' = mined k b
    /\ HasPrefix (Hash b') target = true
    /\ forall j, (j < k)%nat -> HasPrefix (attempt_hash j b) target = false.
Proof.
  revert b. induction fuel as [|fuel IH]; intros b; simpl; [discriminate|].
  destruct (HasPrefix (CalculateHash b) target) eqn:Hp.
  - intros [= <-]. exists O. split; [lia|]. split; [|split].
    + unfold mined. by destruct b.
    + exact Hp.
    + intros j Hj. lia.
  - intros Hloop. apply IH in Hloop as (k & Hk & -> & Hpre & Hfail).
    exists (S k). split; [lia|]. split; [|split].
    + unfold mined. cbn [Nonce set_Nonce set_Hash].
      rewrite nonce_after_shift. by destruct b.
    + revert Hpre. unfold mined. cbn [Nonce set_Nonce set_Hash].
      rewrite nonce_after_shift. by destruct b.
    + intros [|j] Hj.
      * unfold attempt_hash. simpl. destruct b; exact Hp.
      * specialize (Hfail j ltac:(lia)). revert Hfail.
        unfold attempt_hash. cbn [Nonce set_Nonce set_Hash].
        rewrite nonce_after_shift. by destruct b.
Qed.

(** Conversely the loop returns as soon as it has the fuel to reach the
    first successful attempt. *)
Lemma mine_loop_enough fuel target b k :
  HasPrefix (attempt_hash k b) target = true ->
  (forall j, (j < k)%nat -> HasPrefix (attempt_hash j b) target = false) ->
  (k < fuel)%nat ->
  mine_loop fuel target b = Ok (mined k b).
Proof.
  revert b fuel. induction k as [|k IH]; intros b fuel Hk Hfail Hlt;
    (destruct fuel as [|fuel]; [lia|]); simpl.
  - replace (CalculateHash b) with (attempt_hash 0 b)
      by (unfold attempt_hash; by destruct b).
    rewrite Hk. unfold mined, attempt_hash. by destruct b.
  - replace (CalculateHash b) with (attempt_hash 0 b)
      by (unfold attempt_hash; by destruct b).
    rewrite (Hfail O) by lia.
    rewrite IH.
    + unfold mined. cbn [Nonce set_Nonce set_Hash].
      rewrite nonce_after_shift. by destruct b.
    + revert Hk. unfold attempt_hash. cbn [Nonce set_Nonce set_Hash].
      rewrite nonce_after_shift. by destruct b.
    + intros j Hj. specialize (Hfail (S j) ltac:(lia)). revert Hfail.
      unfold attempt_hash. cbn [Nonce set_Nonce set_Hash].
      rewrite nonce_after_shift. by destruct b.
    + lia.
Qed.

Lemma mined_hash k b : Hash (mined k b) = CalculateHash (mined k b).
Proof. reflexivity. Qed.

Lemma MineBlock_Ok fuel b d b' :
  MineBlock fuel b d = Ok b' ->
  0 <= d /\ exists k, (k < fuel)%nat /\ b' = mined k b
    /\ (Z.to_nat d <= leading_zeros (Hash b'))%nat
    /\ forall j, (j < k)%nat ->
         (leading_zeros (attempt_hash j b) < Z.to_nat d)%nat.
Proof.
  unfold MineBlock, Repeat.
  destruct (Z.ltb_spec d 0) as [Hneg|Hpos]; [discriminate|].
  simpl. intros Hloop. split; [done|].
  apply mine_loop_Ok in Hloop as (k & Hk & -> & Hpre & Hfail).
  exists k. repeat split; [done| |].
  - by apply HasPrefix_zeros.
  - intros j Hj. specialize (Hfail j Hj).
    destruct (Nat.lt_ge_cases (leading_zeros (attempt_hash j b)) (Z.to_nat d))
      as [Hlt|Hge]; [done|].
    apply HasPrefix_zeros in Hge. congruence.
Qed.

(** With enough fuel to reach the first attempt that has [d] leading zeros,
    [MineBlock] returns the block of that attempt. *)
Lemma MineBlock_enough fuel b d k :
  0 <= d ->
  (Z.to_nat d <= leading_zeros (attempt_hash k b))%nat ->
  (forall j, (j < k)%nat ->
     (leading_zeros (attempt_hash j b) < Z.to_nat d)%nat) ->
  (k < fuel)%nat ->
  MineBlock fuel b d = Ok (mined k b).
Proof.
  intros Hd Hk Hfail Hlt. unfold MineBlock, Repeat.
  destruct (Z.ltb_spec d 0); [lia|]. cbn [mbind result_bind].
  apply mine_loop_enough; [by apply HasPrefix_zeros| |done].
  intros j Hj. specialize (Hfail j Hj).
  destruct (HasPrefix (attempt_hash j b) (repeat_string "0" (Z.to_nat d)))
    eqn:Hp; [|done].
  apply HasPrefix_zeros in Hp. lia.
Qed.

(** A negative difficulty panics in [strings.Repeat]. *)
Lemma MineBlock_negative fuel b d :
  d < 0 -> MineBlock fuel b d = Panic "strings: negative Repeat count".
Proof.
  intros Hd. unfold MineBlock, Repeat. by destruct (Z.ltb_spec d 0); [|lia].
Qed.

(** C3 (amended).  When [MineBlock] returns, the hash of the block has at
    least [d] leading zeros (not exactly [d]) and is the hash of the final
    field values; the nonce was advanced one by one from the nonce the block
    came with (which [CreateBlock] sets to 0), every earlier attempt having
    fewer than [d] leading zeros; nothing else changed.  For [d = 0] the
    first attempt succeeds. *)
Theorem MineBlock_correct fuel b d b' :
  MineBlock fuel b d = Ok b' ->
  Hash b' = CalculateHash b'
  /\ (Z.to_nat d <= leading_zeros (Hash b'))%nat
  /\ (exists k, (k < fuel)%nat /\ b' = mined k b
        /\ forall j, (j < k)%nat ->
             (leading_zeros (attempt_hash j b) < Z.to_nat d)%nat)
  /\ (d = 0 -> b' = mined 0 b)
  /\ MineBlock 1 b 0 = Ok (mined 0 b).
Proof.
  intros Hm. apply MineBlock_Ok in Hm as (Hd & k & Hk & -> & Hz & Hfail).
  split; [apply mined_hash|]. split; [done|]. split; [by exists k|].
  split.
  - intros ->. destruct k as [|k]; [done|].
    specialize (Hfail O ltac:(lia)). simpl in Hfail. lia.
  - apply (mine_loop_enough 1 "" b 0); [|intros; lia|lia].
    unfold HasPrefix. by destruct (attempt_hash 0 b).
Qed.

Lemma MineBlock_correct_witness :
  let b := sample_block 0 ["r"] 0 in
  MineBlock 100 b 1 = Ok (mined 1 b)
  /\ Hash (mined 1 b) = CalculateHash (mined 1 b)
  /\ (Z.to_nat 1 <= leading_zeros (Hash (mined 1 b)))%nat.
Proof.
  intros b.
  assert (Hm : MineBlock 100 b 1 = Ok (mined 1 b)) by (vm_compute; reflexivity).
  split; [exact Hm|].
  destruct (MineBlock_correct 100 b 1 (mined 1 b) Hm) as (H1 & H2 & _).
  split; assumption.
Defined.

(** C3 as stated fails: a block that comes with nonce 7 and whose first hash
    starts with a zero is returned by [MineBlock b 0] at once, with one
    leading zero rather than none, and with nonce 7. *)
Lemma MineBlock_not_exactly_d :
  ~ (forall fuel b d b',
       MineBlock fuel b d = Ok b' -> leading_zeros (Hash b') = Z.to_nat d).
Proof.
  intros Hclaim.
  specialize (Hclaim 1%nat (sample_block 34 [] 7) 0
                (mined 0 (sample_block 34 [] 7)) ltac:(vm_compute; reflexivity)).
  vm_compute in Hclaim. discriminate.
Qed.

(** ** Chains built by the node *)

Lemma bind_Ok {A B} (r : result A) (k : A -> result B) (y : B) :
  r ≫= k = Ok y -> exists x, r = Ok x /\ k x = Ok y.
Proof. destruct r as [x| |]; [|discriminate..]. intros H. by exists x. Qed.

Lemma CreateBlock_Ok fuel nowTx nowBlock index prevHash relationshipType
    receivers text audio video txPool difficulty minerAddress reward b pool :
  CreateBlock fuel nowTx nowBlock index prevHash relationshipType receivers
    text audio video txPool difficulty minerAddress reward = Ok (b, pool) ->
  Hash b = CalculateHash b /\ PrevHash b = prevHash /\ Index b = index
  /\ Difficulty b = difficulty /\ Category b = "main".
Proof.
  unfold CreateBlock. intros H.
  apply bind_Ok in H as (b0 & Hm & [= <- <-]).
  apply MineBlock_Ok in Hm as (_ & k & _ & -> & _).
  repeat split.
Qed.

Lemma last_cons_default {A} (c : A) (rest : list A) (d : A) :
  List.last (c :: rest) d = List.last rest c.
Proof.
  revert c d. induction rest as [|x rest IH]; intros c d; [reflexivity|].
  change (List.last (c :: x :: rest) d) with (List.last (x :: rest) d).
  rewrite (IH x d), (IH x c). reflexivity.
Qed.

Lemma valid_links_snoc previous rest b :
  valid_links previous (rest ++ [b])
  = valid_links previous rest
    && String.eqb (PrevHash b) (Hash (List.last rest previous))
    && String.eqb (Hash b) (CalculateHash b).
Proof.
  revert previous. induction rest as [|c rest IH]; intros previous.
  - cbn [app valid_links List.last].
    destruct (String.eqb (PrevHash b) (Hash previous)); [|reflexivity].
    by destruct (String.eqb (Hash b) (CalculateHash b)).
  - rewrite last_cons_default. cbn [app valid_links].
    destruct (String.eqb (PrevHash c) (Hash previous)); [|reflexivity].
    destruct (String.eqb (Hash c) (CalculateHash c)); [|reflexivity].
    cbn [negb]. apply IH.
Qed.

(** Appending a self-consistent block that names the hash of the tip keeps
    a valid chain valid; appending one with an empty previous hash to the
    empty chain makes a valid chain. *)
Lemma IsValidChain_snoc chain b :
  Hash b = CalculateHash b ->
  match chain with
  | [] => PrevHash b = ""
  | g :: rest => IsValidChain chain = true /\ PrevHash b = Hash (List.last rest g)
  end ->
  IsValidChain (chain ++ [b]) = true.
Proof.
  intros Hh. destruct chain as [|g rest].
  - intros Hp. cbn [app IsValidChain valid_links].
    rewrite Hp, <- Hh, !String.eqb_refl. reflexivity.
  - intros [Hv Hp]. cbn [app IsValidChain] in *.
    destruct (negb (String.eqb (PrevHash g) "")
              || negb (String.eqb (Hash g) (CalculateHash g))); [discriminate|].
    rewrite valid_links_snoc, Hv, Hp, <- Hh, !String.eqb_refl. reflexivity.
Qed.

Lemma PruneAndArchive_no_files w bc retainCount name r :
  PruneAndArchive w bc retainCount name = Ok r ->
  pruneFiles r = [] -> pruneChain r = bc.
Proof.
  unfold PruneAndArchive.
  destruct (_ <=? retainCount); [by intros [= <-]|].
  destruct (retainCount <? 0); [discriminate|].
  destruct (jsonMarshalIndent w _); [|by intros [= <-]].
  destruct (writeFile w _ _); [by intros [= <-]|].
  intros [= <-]. discriminate.
Qed.

Lemma AddBlock_no_files w bc b bc' :
  AddBlock w bc b = Ok (bc', []) -> Blocks bc' = Blocks bc ++ [b].
Proof.
  unfold AddBlock. cbn [Blocks].
  destruct (_ >? maxBlocks); [|by intros [= <-]].
  intros H. apply bind_Ok in H as (r & Hp & [= <- Hf]).
  by rewrite (PruneAndArchive_no_files _ _ _ _ _ Hp Hf).
Qed.

Lemma AddBlock_short w bc b bc' files :
  AddBlock w bc b = Ok (bc', files) ->
  (length (Blocks bc) < 100)%nat -> files = [].
Proof.
  unfold AddBlock, maxBlocks. cbn [Blocks]. rewrite length_app. cbn [length].
  destruct (Z.gtb_spec (Z.of_nat (length (Blocks bc) + 1)) 100) as [Hgt|Hle].
  - lia.
  - by intros [= _ <-].
Qed.

Lemma linked_snoc prevHash chain b :
  linked prevHash chain -> Hash b = CalculateHash b -> PrevHash b = prevHash ->
  linked (Hash b) (chain ++ [b]).
Proof.
  intros Hl Hh Hp.
  assert (Hv : IsValidChain (chain ++ [b]) = true).
  { apply IsValidChain_snoc; [done|]. destruct chain; simpl in *; [congruence|].
    destruct Hl. split; congruence. }
  destruct chain as [|g rest]; cbn [app linked] in *.
  - done.
  - split; [done|]. by rewrite last_last.
Qed.

Lemma build_chain_linked fuel reqs index prevHash bc bc' files :
  build_chain fuel reqs index prevHash bc = Ok (bc', files) ->
  (files = [] ->
   linked prevHash (Blocks bc) ->
   (exists prevHash', linked prevHash' (Blocks bc'))
   /\ length (Blocks bc') = (length (Blocks bc) + length reqs)%nat)
  /\ ((length (Blocks bc) + length reqs <= 100)%nat -> files = []).
Proof.
  revert index prevHash bc bc' files.
  induction reqs as [|r reqs IH]; intros index prevHash bc bc' files; cbn [build_chain].
  - intros [= <- <-]. split; [|done]. intros _ Hl. split; [by exists prevHash|].
    cbn. lia.
  - intros H.
    apply bind_Ok in H as ([b pool] & Hc & H).
    apply bind_Ok in H as ([bc1 files1] & Ha & H).
    apply bind_Ok in H as ([bc2 files2] & Hb & [= <- <-]).
    cbn [fst snd] in *.
    apply CreateBlock_Ok in Hc as (Hh & Hp & _).
    destruct (IH _ _ _ _ _ Hb) as [IH1 IH2].
    split.
    + intros Hnil Hl. apply app_eq_nil in Hnil as [-> ->].
      apply AddBlock_no_files in Ha.
      destruct IH1 as [Hex Hlen]; [done| |].
      * rewrite Ha. by apply (linked_snoc prevHash).
      * split; [done|]. rewrite Hlen, Ha, length_app. cbn. lia.
    + cbn [length]. intros Hle.
      assert (files1 = []) as -> by (eapply AddBlock_short; [exact Ha|lia]).
      pose proof (AddBlock_no_files _ _ _ _ Ha) as Hbl.
      rewrite IH2; [done|]. rewrite Hbl, length_app. cbn. lia.
Qed.

(** C4 (amended).  A chain built only by [CreateBlock] and [AddBlock], from
    at least one block, satisfies [IsValidChain] as long as no pruning has
    archived its head: whenever no archive was written, and in particular
    whenever at most 100 blocks were added. *)
Theorem build_valid fuel reqs bc files :
  build fuel reqs = Ok (bc, files) ->
  reqs <> [] ->
  (files = [] -> IsValidChain (Blocks bc) = true)
  /\ ((length reqs <= 100)%nat -> files = []).
Proof.
  unfold build. intros Hb Hne.
  destruct (build_chain_linked _ _ _ _ _ _ _ Hb) as [H1 H2].
  split; [|exact H2].
  intros Hnil. destruct H1 as [[prevHash' Hl] Hlen]; [done|reflexivity|].
  destruct (Blocks bc) as [|g rest].
  - destruct reqs; [done|]. cbn in Hlen. lia.
  - apply Hl.
Qed.

Lemma build_valid_witness :
  exists bc,
    build 1 [easy_request; easy_request; easy_request] = Ok (bc, [])
    /\ IsValidChain (Blocks bc) = true.
Proof.
  destruct (build 1 [easy_request; easy_request; easy_request])
    as [[bc files]| |] eqn:Hb; [|vm_compute in Hb; discriminate..].
  destruct (build_valid 1 [easy_request; easy_request; easy_request] bc files Hb)
    as [Hvalid Hfiles]; [discriminate|].
  rewrite Hfiles in * by (cbn; lia).
  exists bc. split; [reflexivity|]. by apply Hvalid.
Defined.

(** C4 as stated fails: after 101 blocks the automatic pruning has kept the
    last 50, the first of which names a block that is no longer there, and
    [IsValidChain] rejects the chain. *)
Lemma build_pruned_invalid :
  ~ (forall fuel reqs bc files,
       build fuel reqs = Ok (bc, files) -> reqs <> [] ->
       IsValidChain (Blocks bc) = true).
Proof.
  intros Hclaim.
  assert (Hbad : built_invalid (build 1 (List.repeat easy_request 101)) = true)
    by (vm_compute; reflexivity).
  destruct (build 1 (List.repeat easy_request 101)) as [[bc files]| |] eqn:Hb;
    [|discriminate..].
  cbn [built_invalid] in Hbad.
  rewrite (Hclaim _ _ _ _ Hb) in Hbad; [discriminate|].
  discriminate.
Qed.

(** ** Difficulty adjustment *)

Lemma index_Ok {A} (l : list A) (i : nat) (x : A) :
  l !! i = Some x -> index l (Z.of_nat i) = Ok x.
Proof.
  intros H. unfold index.
  destruct (Z.ltb_spec (Z.of_nat i) 0); [lia|].
  by rewrite Nat2Z.id, H.
Qed.

Lemma index_out_of_range {A} (l : list A) (i : Z) :
  i < 0 \/ Z.of_nat (length l) <= i -> index l i = Panic "index out of range".
Proof.
  intros H. unfold index.
  destruct (Z.ltb_spec i 0); [done|].
  rewrite lookup_ge_None_2; [done|lia].
Qed.

Lemma index_last {A} (front : list A) (x : A) :
  Z.of_nat (length (front ++ [x])) < 2 ^ 63 ->
  index (front ++ [x]) (sub64 (Z.of_nat (length (front ++ [x]))) 1) = Ok x.
Proof.
  intros Hlen. rewrite length_app in *. cbn [length] in *.
  unfold sub64. rewrite wrap64_id by (unfold in_int64; lia).
  replace (Z.of_nat (length front + 1) - 1) with (Z.of_nat (length front)) by lia.
  apply index_Ok. by rewrite lookup_app_r, Nat.sub_diag.
Qed.

(** With a window that is not positive the start of the window is past the
    end of the chain. *)
Lemma AdjustDifficulty_no_window chain target w :
  in_int64 w -> w <= 0 -> Z.of_nat (length chain) < 2 ^ 63 ->
  AdjustDifficulty chain target w = Panic "index out of range".
Proof.
  intros Hw Hle Hlen. unfold AdjustDifficulty.
  destruct (Z.ltb_spec (Z.of_nat (length chain)) w); [lia|].
  rewrite (index_out_of_range chain (sub64 (Z.of_nat (length chain)) w)); [done|].
  pose proof (wrap64_range (Z.of_nat (length chain) - w)) as Hr.
  unfold sub64, in_int64 in *.
  destruct (Z.le_gt_cases (2 ^ 63) (Z.of_nat (length chain) - w)) as [Hbig|Hsmall].
  - left. unfold wrap64.
    assert (2 ^ 63 <= Z.of_nat (length chain) - w < 2 ^ 64) as Hb by lia.
    replace (Z.of_nat (length chain) - w + 2 ^ 63)
      with (Z.of_nat (length chain) - w - 2 ^ 63 + 1 * 2 ^ 64) by lia.
    rewrite Z.mod_add by lia. rewrite Z.mod_small by lia. lia.
  - right. rewrite wrap64_id by (unfold in_int64; lia). lia.
Qed.

(** On an empty chain [AdjustDifficulty] indexes out of range. *)
Lemma AdjustDifficulty_empty target w :
  in_int64 w -> AdjustDifficulty [] target w = Panic "index out of range".
Proof.
  intros Hw. destruct (Z.lt_ge_cases 0 w) as [Hpos|Hneg].
  - unfold AdjustDifficulty.
    change (Z.of_nat (length (@nil Block))) with 0.
    destruct (Z.ltb_spec 0 w); [reflexivity|lia].
  - apply AdjustDifficulty_no_window; [done|lia|]. cbn. lia.
Qed.

(** Halving then doubling keeps the order for every expected time that is
    not negative and whose double fits a [time.Duration]. *)
Lemma half_le_twice expected :
  0 <= expected < 2 ^ 62 -> div64 expected 2 <= mul64 expected 2.
Proof.
  intros H. unfold div64, mul64.
  assert (0 <= Z.quot expected 2 <= expected).
  { rewrite Z.quot_div_nonneg by lia. split; [apply Z.div_pos; lia|].
    apply Z.div_le_upper_bound; lia. }
  rewrite !wrap64_id by (unfold in_int64; lia). lia.
Qed.



(** ** What the hash depends on *)

Lemma list_ascii_of_string_append a b :
  list_ascii_of_string (a +:+ b)
  = list_ascii_of_string a ++ list_ascii_of_string b.
Proof.
  induction a as [|c a IH]; [reflexivity|].
  change (String c a +:+ b) with (String c (a +:+ b)).
  cbn [list_ascii_of_string app]. by rewrite IH.
Qed.

Lemma list_ascii_of_string_inj a b :
  list_ascii_of_string a = list_ascii_of_string b -> a = b.
Proof.
  intros H. rewrite <- (string_of_list_ascii_of_string a),
    <- (string_of_list_ascii_of_string b). by rewrite H.
Qed.

Lemma append_inv_head s a b : s +:+ a = s +:+ b -> a = b.
Proof. apply String.app_inj. Qed.

Lemma append_inv_tail s a b : a +:+ s = b +:+ s -> a = b.
Proof.
  intros H. apply list_ascii_of_string_inj.
  apply (f_equal list_ascii_of_string) in H.
  rewrite !list_ascii_of_string_append in H.
  by apply app_inv_tail in H.
Qed.

Lemma fmt_d_inj n m : fmt_d n = fmt_d m -> n = m.
Proof. apply pretty_Z_inj. Qed.

Lemma fmt_extra_string_inj s t :
  fmt_extra_string s = fmt_extra_string t -> s = t.
Proof.
  unfold fmt_extra_string. intros H.
  apply append_inv_head in H. by apply append_inv_tail in H.
Qed.

(** Agreement on every field but [f], as equations. *)
Ltac same_but Hsame :=
  let use g :=
    try (let E := fresh "E" in
         assert (E := Hsame g ltac:(discriminate));
         cbn [same_field Index Timestamp PrevHash RelationshipType TextData
              AudioData VideoData Receivers Difficulty Nonce Category] in E) in
  use FIndex; use FTimestamp; use FPrevHash; use FRelationshipType;
  use FTextData; use FAudioData; use FVideoData; use FReceivers;
  use FDifficulty; use FNonce; use FCategory.

Lemma record_same_fields b1 b2 :
  (forall f, same_field f b1 b2) -> record b1 = record b2.
Proof.
  intros H. unfold record.
  rewrite (H FIndex), (H FTimestamp), (H FPrevHash), (H FRelationshipType),
    (H FTextData), (H FAudioData), (H FVideoData), (H FReceivers),
    (H FDifficulty), (H FNonce), (H FCategory).
  reflexivity.
Qed.

(** A change of one field other than the receivers always shows in the string
    that is hashed. *)
Lemma record_one_field f b1 b2 :
  f <> FReceivers ->
  (forall g, g <> f -> same_field g b1 b2) ->
  record b1 = record b2 -> same_field f b1 b2.
Proof.
  intros Hf Hsame Hrec. unfold record in Hrec.
  destruct b1 as [i1 t1 p1 h1 n1 r1 rc1 x1 a1 v1 txs1 sb1 d1 c1].
  destruct b2 as [i2 t2 p2 h2 n2 r2 rc2 x2 a2 v2 txs2 sb2 d2 c2].
  cbn [Index Timestamp PrevHash RelationshipType TextData AudioData VideoData
       Receivers Difficulty Nonce Category] in Hrec.
  destruct f; try (by destruct Hf); same_but Hsame; clear Hsame; subst;
    cbn [same_field Index Timestamp PrevHash RelationshipType TextData
         AudioData VideoData Receivers Difficulty Nonce Category];
    repeat apply append_inv_head in Hrec;
    first [ by apply fmt_extra_string_inj
          | apply append_inv_tail in Hrec;
            first [exact Hrec | by apply fmt_d_inj] ].
Qed.

(** C6 (amended).  [CalculateHash] is the SHA-256 digest of a string built
    from exactly the eleven hashed fields: blocks that agree on them have the
    same digest, and a change of any single field except the receivers
    changes the string that is hashed. *)
Theorem CalculateHash_fields :
  (forall b1 b2, (forall f, same_field f b1 b2) ->
                 CalculateHash b1 = CalculateHash b2)
  /\ (forall f b1 b2,
        f <> FReceivers ->
        (forall g, g <> f -> same_field g b1 b2) ->
        ~ same_field f b1 b2 ->
        record b1 <> record b2)
  /\ (forall b, CalculateHash b = sha256_hex (record b)).
Proof.
  split; [|split].
  - intros b1 b2 H. unfold CalculateHash. by rewrite (record_same_fields b1 b2 H).
  - intros f b1 b2 Hf Hsame Hdiff Hrec.
    apply Hdiff. by apply record_one_field.
  - reflexivity.
Qed.

(** C6 as stated fails: the receivers ["a b"] and ["a"; "b"] are both
    printed [[a b]], so two blocks that differ in nothing else are hashed
    from the same string and share the digest. *)
Lemma CalculateHash_receivers_collide :
  ~ (forall f b1 b2,
       (forall g, g <> f -> same_field g b1 b2) ->
       ~ same_field f b1 b2 ->
       CalculateHash b1 <> CalculateHash b2).
Proof.
  intros Hclaim.
  apply (Hclaim FReceivers (sample_block 0 ["a b"] 0) (sample_block 0 ["a"; "b"] 0)).
  - intros g Hg. destruct g; try reflexivity. by destruct Hg.
  - discriminate.
  - unfold CalculateHash. f_equal.
Qed.

(** ** Pruning and archiving *)

Lemma PruneAndArchive_negative w bc retainCount name :
  retainCount < 0 ->
  PruneAndArchive w bc retainCount name = Panic "slice bounds out of range".
Proof.
  intros Hneg. unfold PruneAndArchive.
  destruct (Z.leb_spec (Z.of_nat (length (Blocks bc))) retainCount); [lia|].
  destruct (Z.ltb_spec retainCount 0); [done|lia].
Qed.

(** C7.  For a retain count that is not negative, [PruneAndArchive] leaves a
    chain of at most that many blocks alone and returns nil.  On a longer
    chain it hands the oldest [length - retainCount] blocks to the encoder
    and the encoding to the file system; when both succeed the chain keeps
    exactly the most recent [retainCount] blocks and the one file written
    holds the encoding of the others; when either fails an error is returned,
    nothing is written and the chain is unchanged. *)
Theorem PruneAndArchive_spec w bc retainCount name :
  0 <= retainCount ->
  let total := Z.of_nat (length (Blocks bc)) in
  let old := take (Z.to_nat (total - retainCount)) (Blocks bc) in
  let recent := drop (Z.to_nat (total - retainCount)) (Blocks bc) in
  let file := name +:+ "_" +:+ fmt_d (unixNow w) +:+ ".json" in
  (total <= retainCount ->
   PruneAndArchive w bc retainCount name = Ok (mkPruned None bc []))
  /\ (retainCount < total ->
      Blocks bc = old ++ recent
      /\ Z.of_nat (length old) = total - retainCount
      /\ Z.of_nat (length recent) = retainCount
      /\ match jsonMarshalIndent w old with
         | inl data =>
             match writeFile w file data with
             | None =>
                 PruneAndArchive w bc retainCount name
                 = Ok (mkPruned None (mkBlockchain recent) [(file, data)])
             | Some _ =>
                 exists err, PruneAndArchive w bc retainCount name
                             = Ok (mkPruned (Some err) bc [])
             end
         | inr _ =>
             exists err, PruneAndArchive w bc retainCount name
                         = Ok (mkPruned (Some err) bc [])
         end).
Proof.
  intros Hpos total old recent file. unfold PruneAndArchive. fold total.
  split.
  - intros Hle. by destruct (Z.leb_spec total retainCount); [|lia].
  - intros Hlt.
    destruct (Z.leb_spec total retainCount); [lia|].
    destruct (Z.ltb_spec retainCount 0); [lia|].
    fold old recent file.
    split; [symmetry; apply take_drop|].
    split; [unfold old; rewrite length_take; unfold total in *; lia|].
    split; [unfold recent; rewrite length_drop; unfold total in *; lia|].
    destruct (jsonMarshalIndent w old) as [data|err]; [|by eexists].
    destruct (writeFile w file data) as [err|]; [by eexists|reflexivity].
Qed.

Lemma PruneAndArchive_spec_witness :
  let bc := mkBlockchain [timed_block 1 1; timed_block 2 1; timed_block 3 1] in
  PruneAndArchive obliging_world bc 2 "archive"
  = Ok (mkPruned None (mkBlockchain [timed_block 2 1; timed_block 3 1])
          [("archive_1700000000.json", "[]")]).
Proof.
  intros bc.
  destruct (PruneAndArchive_spec obliging_world bc 2 "archive") as [_ H];
    [vm_compute; discriminate|].
  destruct H as (_ & _ & _ & H); [vm_compute; reflexivity|].
  exact H.
Defined.

(** ** A new block from a peer *)

Lemma handleNewBlock_undecodable n err :
  handleNewBlock n (UnmarshalError err) = Ok (n, None).
Proof. reflexivity. Qed.

(** A null in place of the block is dereferenced once the tip has been read. *)
Lemma handleNewBlock_nil n front tip :
  Blocks (NodeBlockchain n) = front ++ [tip] ->
  Z.of_nat (length (front ++ [tip])) < 2 ^ 63 ->
  handleNewBlock n UnmarshalNil = Panic "nil pointer dereference".
Proof.
  intros Hb Hlen. unfold handleNewBlock. rewrite Hb.
  by rewrite index_last by exact Hlen.
Qed.



(** ** Sub-blocks *)

Lemma UpdateBlockWithSubBlock_Ex fuel now bc parentIndex text audio video category :
  UpdateBlockWithSubBlock fuel now bc parentIndex text audio video category
  = UpdateBlockWithSubBlockEx fuel now bc parentIndex text audio video category.
Proof. reflexivity. Qed.

Lemma set_Hash_id b : Hash b = CalculateHash b -> set_Hash (CalculateHash b) b = b.
Proof. intros H. rewrite <- H. by destruct b. Qed.



(** ** Ledger *)

Lemma units_zero : units 0%float = 0.
Proof. reflexivity. Qed.

Lemma total_units_insert l k v :
  total_units (<[k := v]> l) = total_units l - units (balance l k) + units v.
Proof.
  unfold total_units, balance.
  destruct (l !! k) as [old|] eqn:Hk.
  - rewrite <- (insert_delete_eq l).
    rewrite map_fold_insert_L; [|intros; cbv beta; lia|apply lookup_delete_eq].
    rewrite <- (insert_id l k old Hk) at 2.
    rewrite <- (insert_delete_eq l).
    rewrite (map_fold_insert_L _ _ k old); [|intros; cbv beta; lia|apply lookup_delete_eq].
    change (default 0%float (Some old)) with old. lia.
  - rewrite map_fold_insert_L; [|intros; cbv beta; lia|exact Hk].
    change (default 0%float None) with 0%float. rewrite units_zero. lia.
Qed.

Lemma exact_add_units x y :
  exact_add x y = true -> units (x + y)%float = units x + units y.
Proof.
  unfold exact_add, units.
  destruct (float_units x), (float_units y), (float_units (x + y)%float);
    try discriminate.
  intros H. apply Z.eqb_eq in H. exact H.
Qed.

Lemma exact_sub_units x y :
  exact_sub x y = true -> units (x - y)%float = units x - units y.
Proof.
  unfold exact_sub, units.
  destruct (float_units x), (float_units y), (float_units (x - y)%float);
    try discriminate.
  intros H. apply Z.eqb_eq in H. exact H.
Qed.

(** A rejected transaction leaves the ledger as it was. *)
Lemma ProcessTransaction_rejected l tx l' err :
  ProcessTransaction l tx = (l', Some err) -> l' = l.
Proof.
  unfold ProcessTransaction.
  destruct (balance l (Sender tx) <? Amount tx)%float; [|discriminate].
  by intros [= <- _].
Qed.

(** An accepted transaction whose debit and credit are exact keeps the total. *)
Lemma ProcessTransaction_total l tx l' :
  ProcessTransaction l tx = (l', None) ->
  exact_sub (balance l (Sender tx)) (Amount tx) = true ->
  exact_add
    (balance (<[Sender tx := (balance l (Sender tx) - Amount tx)%float]> l)
             (Recipient tx))
    (Amount tx) = true ->
  total_units l' = total_units l.
Proof.
  unfold ProcessTransaction.
  destruct (balance l (Sender tx) <? Amount tx)%float; [discriminate|].
  intros [= <-] Hsub Hadd.
  rewrite !total_units_insert.
  rewrite (exact_add_units _ _ Hadd), (exact_sub_units _ _ Hsub). lia.
Qed.

Lemma ProcessCoinbaseTransaction_total l recipient reward :
  exact_add (balance l recipient) reward = true ->
  total_units (ProcessCoinbaseTransaction l recipient reward)
  = total_units l + units reward.
Proof.
  intros Hadd. unfold ProcessCoinbaseTransaction.
  rewrite total_units_insert, (exact_add_units _ _ Hadd). lia.
Qed.

(** C9 (amended).  A rejected transaction changes no balance.  Over a
    sequence of accepted transactions and coinbase credits in which every
    floating-point debit and credit is exact, the total of the balances
    grows by exactly the coinbase rewards. *)
Theorem Ledger_conservation :
  (forall l tx l' err, ProcessTransaction l tx = (l', Some err) -> l' = l)
  /\ (forall ops l l',
        apply_ops l ops = Some l' ->
        exact_ops l ops = true ->
        total_units l' = total_units l + coinbase_units ops).
Proof.
  split; [exact ProcessTransaction_rejected|].
  induction ops as [|op ops IH]; intros l l'; cbn [apply_ops exact_ops coinbase_units].
  - intros [= <-] _. lia.
  - destruct op as [tx|recipient reward].
    + destruct (ProcessTransaction l tx) as [l1 [err|]] eqn:Htx; [discriminate|].
      intros Hrun Hexact. cbn [fst] in Hexact.
      apply andb_prop in Hexact as [Hexact Hrest].
      apply andb_prop in Hexact as [Hsub Hadd].
      rewrite (IH _ _ Hrun Hrest).
      by rewrite (ProcessTransaction_total _ _ _ Htx Hsub Hadd).
    + intros Hrun Hexact.
      apply andb_prop in Hexact as [Hadd Hrest].
      rewrite (IH _ _ Hrun Hrest).
      rewrite (ProcessCoinbaseTransaction_total _ _ _ Hadd). lia.
Qed.

Lemma Ledger_conservation_witness :
  exists l',
    apply_ops small_ledger small_ops = Some l'
    /\ total_units l' = total_units small_ledger + units 12.5%float.
Proof.
  destruct (apply_ops small_ledger small_ops) as [l'|] eqn:Hrun;
    [|vm_compute in Hrun; discriminate].
  exists l'. split; [reflexivity|].
  destruct Ledger_conservation as [_ H].
  rewrite (H small_ops small_ledger l' Hrun); [|vm_compute; reflexivity].
  cbn [small_ops coinbase_units]. lia.
Defined.

(** C9 as stated fails: 10^16 - 1 rounds back to 10^16, so two transfers of 1
    from an account holding 10^16 leave that account as it was and credit
    the recipient with 2: the total has grown with no coinbase reward. *)
Lemma Ledger_rounding_creates_money :
  ~ (forall ops l l',
       apply_ops l ops = Some l' ->
       total_units l' = total_units l + coinbase_units ops).
Proof.
  intros Hclaim.
  destruct (apply_ops rich_ledger [one_to_B; one_to_B]) as [l'|] eqn:Hrun;
    [|vm_compute in Hrun; discriminate].
  specialize (Hclaim _ _ _ Hrun).
  vm_compute in Hrun. injection Hrun as <-.
  vm_compute in Hclaim. discriminate.
Qed.

(** * Further properties *)

(** Properties of the code beyond those the specification states: edge
    cases, invariants, and the way the functions compose. *)

(** ** The shape of a digest *)

Lemma round_length st kw : length st = 8%nat -> length (SHA256.round st kw) = 8%nat.
Proof.
  intros H. do 9 (destruct st as [|? st]; try discriminate H). reflexivity.
Qed.

Lemma fold_round_length kws st :
  length st = 8%nat -> length (fold_left SHA256.round kws st) = 8%nat.
Proof.
  revert st. induction kws as [|kw kws IH]; intros st H; [exact H|].
  cbn [fold_left]. apply IH, round_length, H.
Qed.

Lemma compress_length h block :
  length h = 8%nat -> length (SHA256.compress h block) = 8%nat.
Proof.
  intros H. unfold SHA256.compress.
  rewrite List.length_map, List.length_combine, fold_round_length by exact H.
  rewrite H. reflexivity.
Qed.

Lemma blocks_length n ws h :
  length h = 8%nat -> length (SHA256.blocks n ws h) = 8%nat.
Proof.
  revert ws h. induction n as [|n IH]; intros ws h H; [exact H|].
  cbn [SHA256.blocks]. apply IH, compress_length, H.
Qed.

Lemma word_bytes_concat_length ws :
  length (List.concat (List.map SHA256.word_bytes ws)) = (4 * length ws)%nat.
Proof.
  induction ws as [|w ws IH]; [reflexivity|].
  cbn [List.map List.concat]. rewrite List.length_app, IH.
  cbn [SHA256.word_bytes length]. lia.
Qed.

Lemma word_bytes_concat_range ws :
  Forall (fun b => 0 <= b < 256) (List.concat (List.map SHA256.word_bytes ws)).
Proof.
  assert (Hbyte : forall x, 0 <= Z.land x 255 < 256).
  { intros x. change 255 with (Z.ones 8). rewrite Z.land_ones by lia.
    apply Z.mod_pos_bound. lia. }
  induction ws as [|w ws IH]; [constructor|].
  cbn [List.map List.concat SHA256.word_bytes app].
  repeat (constructor; [apply Hbyte|]). exact IH.
Qed.

Lemma sum256_length msg : length (SHA256.sum256 msg) = 32%nat.
Proof.
  unfold SHA256.sum256. rewrite word_bytes_concat_length, blocks_length; reflexivity.
Qed.

Lemma sum256_range msg : Forall (fun b => 0 <= b < 256) (SHA256.sum256 msg).
Proof. apply word_bytes_concat_range. Qed.

Lemma hex_digit_is_hex n : 0 <= n < 16 -> is_hex_digit (hex_digit n) = true.
Proof.
  intros H. replace n with (Z.of_nat (Z.to_nat n)) by lia.
  assert (Hk : (Z.to_nat n < 16)%nat) by lia.
  revert Hk. generalize (Z.to_nat n) as k. intros k Hk.
  do 16 (destruct k as [|k]; [reflexivity|]). lia.
Qed.

Lemma EncodeToString_length bs :
  String.length (EncodeToString bs) = (2 * length bs)%nat.
Proof.
  induction bs as [|b bs IH]; [reflexivity|].
  cbn [EncodeToString String.length length]. rewrite IH. lia.
Qed.

Lemma EncodeToString_hex bs :
  Forall (fun b => 0 <= b < 256) bs ->
  Forall (fun c => is_hex_digit c = true) (list_ascii_of_string (EncodeToString bs)).
Proof.
  induction 1 as [|b bs Hb _ IH]; [constructor|].
  cbn [EncodeToString list_ascii_of_string].
  constructor; [|constructor; [|exact IH]]; apply hex_digit_is_hex.
  - rewrite Z.shiftr_div_pow2 by lia. change (2 ^ 4) with 16.
    split; [apply Z.div_pos; lia | apply Z.div_lt_upper_bound; lia].
  - change 15 with (Z.ones 4). rewrite Z.land_ones by lia.
    apply Z.mod_pos_bound. lia.
Qed.

Lemma sha256_hex_length s : String.length (sha256_hex s) = 64%nat.
Proof.
  unfold sha256_hex. rewrite EncodeToString_length, sum256_length. reflexivity.
Qed.


Lemma CalculateHash_not_empty b : CalculateHash b <> "".
Proof.
  intros H. assert (E := sha256_hex_length (record b)).
  unfold CalculateHash in H. rewrite H in E. discriminate E.
Qed.

(** X1.  The hash of a block is always 64 characters long, each one of the
    lower-case hexadecimal digits. *)
Theorem CalculateHash_hex64 b :
  String.length (CalculateHash b) = 64%nat
  /\ Forall (fun c => is_hex_digit c = true)
            (list_ascii_of_string (CalculateHash b)).
Proof.
  split; [apply sha256_hex_length|].
  apply EncodeToString_hex, sum256_range.
Qed.




(** ** What a valid chain is *)

Lemma valid_links_iff previous rest :
  valid_links previous rest = true <->
  Forall hash_valid rest
  /\ forall i prev cur,
       (previous :: rest) !! i = Some prev ->
       (previous :: rest) !! S i = Some cur ->
       PrevHash cur = Hash prev.
Proof.
  revert previous. induction rest as [|c rest IH]; intros previous.
  - cbn [valid_links]. split; [intros _|reflexivity].
    split; [constructor|]. intros [|i] prev cur _ H; discriminate H.
  - cbn [valid_links].
    destruct (String.eqb_spec (PrevHash c) (Hash previous)) as [E1|E1]; cbn [negb].
    + destruct (String.eqb_spec (Hash c) (CalculateHash c)) as [E2|E2]; cbn [negb].
      * rewrite IH. split; intros [HF HL]; split.
        -- constructor; assumption.
        -- intros [|i] prev cur Hp Hc.
           ++ cbn in Hp, Hc. congruence.
           ++ apply (HL i); assumption.
        -- inversion HF; assumption.
        -- intros i prev cur Hp Hc. apply (HL (S i)); assumption.
      * split; [discriminate|]. intros [HF _]. inversion HF; contradiction.
    + split; [discriminate|]. intros [_ HL]. destruct E1.
      apply (HL 0%nat); reflexivity.
Qed.

Lemma IsValidChain_inv chain :
  IsValidChain chain = true ->
  (exists genesis, head chain = Some genesis /\ PrevHash genesis = "")
  /\ Forall hash_valid chain
  /\ forall i prev cur,
       chain !! i = Some prev -> chain !! S i = Some cur ->
       PrevHash cur = Hash prev.
Proof.
  destruct chain as [|g rest]; [discriminate|]. cbn [IsValidChain head].
  destruct (String.eqb_spec (PrevHash g) "") as [E1|]; [|discriminate].
  destruct (String.eqb_spec (Hash g) (CalculateHash g)) as [E2|]; [|discriminate].
  cbn [negb orb]. intros H. apply valid_links_iff in H as [HF HL].
  split; [exists g; split; [reflexivity|exact E1]|].
  split; [constructor; assumption|exact HL].
Qed.

(** X3.  [IsValidChain] accepts exactly the chains that are not empty, begin
    with a block whose previous hash is empty, hold only blocks whose stored
    hash is the hash of their fields, and in which every block names the
    stored hash of the block before it. *)
Theorem IsValidChain_iff chain :
  IsValidChain chain = true <->
  (exists genesis, head chain = Some genesis /\ PrevHash genesis = "")
  /\ Forall hash_valid chain
  /\ forall i prev cur,
       chain !! i = Some prev -> chain !! S i = Some cur ->
       PrevHash cur = Hash prev.
Proof.
  destruct chain as [|g rest].
  - cbn [IsValidChain]. split; [discriminate|].
    intros [[genesis [H _]] _]. discriminate H.
  - cbn [IsValidChain head].
    destruct (String.eqb_spec (PrevHash g) "") as [E1|E1]; cbn [negb orb].
    + destruct (String.eqb_spec (Hash g) (CalculateHash g)) as [E2|E2]; cbn [negb].
      * rewrite valid_links_iff. split.
        -- intros [HF HL]. split; [exists g; split; [reflexivity|exact E1]|].
           split; [constructor; assumption|exact HL].
        -- intros [_ [HF HL]]. split; [inversion HF; assumption|exact HL].
      * split; [discriminate|]. intros [_ [HF _]]. inversion HF; contradiction.
    + split; [discriminate|]. intros [[genesis [H E]] _].
      injection H as <-. contradiction.
Qed.

Lemma IsValidChain_drop chain k :
  IsValidChain chain = true -> (0 < k)%nat -> IsValidChain (drop k chain) = false.
Proof.
  intros Hvalid Hk. destruct (IsValidChain (drop k chain)) eqn:E; [|reflexivity].
  apply IsValidChain_inv in Hvalid as [_ [HF HL]].
  apply IsValidChain_inv in E as [[c [Hc Hempty]] _].
  destruct k as [|k]; [lia|].
  assert (Hcur : chain !! S k = Some c).
  { rewrite <- (Nat.add_0_r (S k)), <- lookup_drop.
    destruct (drop (S k) chain); [discriminate Hc|exact Hc]. }
  destruct (chain !! k) as [p|] eqn:Hprev.
  - assert (Hp : hash_valid p).
    { rewrite Forall_lookup in HF. exact (HF k p Hprev). }
    specialize (HL k p c Hprev Hcur). unfold hash_valid in Hp.
    rewrite Hempty, Hp in HL. symmetry in HL.
    destruct (CalculateHash_not_empty p HL).
  - apply lookup_ge_None in Hprev. apply lookup_lt_Some in Hcur. lia.
Qed.

(** X4.  Pruning that archives anything leaves a chain [IsValidChain]
    rejects: the first block kept still names the hash of an archived block,
    and no hash is the empty string. *)
Theorem PruneAndArchive_breaks_validity w bc retainCount name r :
  IsValidChain (Blocks bc) = true ->
  PruneAndArchive w bc retainCount name = Ok r ->
  pruneFiles r <> [] ->
  IsValidChain (Blocks (pruneChain r)) = false.
Proof.
  intros Hvalid Hprune Hfiles. unfold PruneAndArchive in Hprune.
  destruct (Z.of_nat (length (Blocks bc)) <=? retainCount) eqn:E1.
  { injection Hprune as <-. destruct Hfiles. reflexivity. }
  destruct (retainCount <? 0) eqn:E2; [discriminate Hprune|].
  apply Z.leb_gt in E1. apply Z.ltb_ge in E2.
  destruct (jsonMarshalIndent w _) as [data|err].
  - destruct (writeFile w _ data) as [err|].
    + injection Hprune as <-. destruct Hfiles. reflexivity.
    + injection Hprune as <-. cbn [pruneChain Blocks].
      apply IsValidChain_drop; [exact Hvalid|lia].
  - injection Hprune as <-. destruct Hfiles. reflexivity.
Qed.

Lemma PruneAndArchive_breaks_validity_witness :
  let bc := mkBlockchain [fork_genesis; fork_local2] in
  IsValidChain (Blocks bc) = true
  /\ exists r, PruneAndArchive obliging_world bc 1 "archive" = Ok r
       /\ IsValidChain (Blocks (pruneChain r)) = false.
Proof.
  split; [vm_compute; reflexivity|].
  eexists. split; [vm_compute; reflexivity|].
  apply (PruneAndArchive_breaks_validity obliging_world
           (mkBlockchain [fork_genesis; fork_local2]) 1 "archive").
  - vm_compute; reflexivity.
  - vm_compute; reflexivity.
  - discriminate.
Defined.

(** ** Appending and looking up *)

Lemma AddBlock_cases w bc b :
  AddBlock w bc b = Ok (mkBlockchain (Blocks bc ++ [b]), [])
  \/ ((100 <= length (Blocks bc))%nat
      /\ exists file data,
           AddBlock w bc b
           = Ok (mkBlockchain (drop (length (Blocks bc) - 49) (Blocks bc ++ [b])),
                 [(file, data)])).
Proof.
  unfold AddBlock. cbn [Blocks]. rewrite List.length_app. cbn [length].
  destruct (Z.of_nat (length (Blocks bc) + 1) >? maxBlocks) eqn:E; [|left; reflexivity].
  unfold maxBlocks in E. apply Z.gtb_lt in E.
  unfold PruneAndArchive. cbn [Blocks]. rewrite List.length_app. cbn [length].
  destruct (Z.of_nat (length (Blocks bc) + 1) <=? 50) eqn:E1;
    [apply Z.leb_le in E1; lia|].
  change (50 <? 0) with false. cbv iota.
  replace (Z.to_nat (Z.of_nat (length (Blocks bc) + 1) - 50))
    with (length (Blocks bc) - 49)%nat by lia.
  destruct (jsonMarshalIndent w _) as [data|err]; [|left; reflexivity].
  destruct (writeFile w _ data) as [err|]; [left; reflexivity|].
  right. split; [lia|]. eexists _, _. reflexivity.
Qed.

Lemma drop_snoc {A} (k : nat) (l : list A) (x : A) :
  (k <= length l)%nat -> drop k (l ++ [x]) = drop k l ++ [x].
Proof. intros H. rewrite drop_app_le by exact H. reflexivity. Qed.

Lemma AddBlock_outcome w bc b :
  exists bc' files front,
    AddBlock w bc b = Ok (bc', files)
    /\ Blocks bc' = front ++ [b]
    /\ (files = [] -> front = Blocks bc).
Proof.
  destruct (AddBlock_cases w bc b) as [H|[Hlen [file [data H]]]].
  - eexists _, _, (Blocks bc). split; [exact H|]. split; reflexivity.
  - eexists _, _, (drop (length (Blocks bc) - 49) (Blocks bc)).
    split; [exact H|]. split; [apply drop_snoc; lia|discriminate].
Qed.

(** X5.  [AddBlock] always returns, and the block it was given is the tip
    afterwards.  The chain afterwards is the end of the chain before,
    followed by the new block; it is the whole of it when nothing was
    archived, and whenever something was archived exactly 50 blocks remain. *)
Theorem AddBlock_tip w bc b :
  exists bc' files,
    AddBlock w bc b = Ok (bc', files)
    /\ (exists old front, Blocks bc = old ++ front /\ Blocks bc' = front ++ [b])
    /\ (files = [] -> Blocks bc' = Blocks bc ++ [b])
    /\ (files <> [] ->
        (100 <= length (Blocks bc))%nat /\ length (Blocks bc') = 50%nat)
    /\ ((length (Blocks bc) < 100)%nat -> files = []).
Proof.
  destruct (AddBlock_cases w bc b) as [H|[Hlen [file [data H]]]].
  - eexists _, _. split; [exact H|]. cbn [Blocks].
    split; [exists [], (Blocks bc); split; reflexivity|].
    split; [reflexivity|]. split; [intros Hfiles; destruct Hfiles|]; reflexivity.
  - eexists _, _. split; [exact H|]. cbn [Blocks].
    set (k := (length (Blocks bc) - 49)%nat).
    assert (Hdrop : drop k (Blocks bc ++ [b]) = drop k (Blocks bc) ++ [b])
      by (apply drop_snoc; unfold k; lia).
    split; [exists (take k (Blocks bc)), (drop k (Blocks bc)); split;
            [symmetry; apply take_drop|exact Hdrop]|].
    split; [discriminate|]. split; [|lia].
    intros _. split; [exact Hlen|].
    rewrite Hdrop, List.length_app, length_drop. cbn [length]. unfold k. lia.
Qed.

Lemma find_first {A} (f : A -> bool) (l : list A) (x : A) :
  List.find f l = Some x <->
  exists pre post,
    l = pre ++ x :: post /\ f x = true /\ Forall (fun y => f y = false) pre.
Proof.
  induction l as [|a l IH]; cbn [List.find].
  - split; [discriminate|]. intros [[|? ?] [post [H _]]]; discriminate H.
  - destruct (f a) eqn:E.
    + split.
      * intros [= <-]. exists [], l. split; [reflexivity|]. split; [exact E|constructor].
      * intros [[|a' pre] [post [H [Hx Hpre]]]].
        -- injection H as -> _. reflexivity.
        -- injection H as <- _. inversion Hpre; congruence.
    + rewrite IH. split.
      * intros [pre [post [-> [Hx Hpre]]]]. exists (a :: pre), post.
        split; [reflexivity|]. split; [exact Hx|constructor; assumption].
      * intros [[|a' pre] [post [H [Hx Hpre]]]].
        -- injection H as -> _. congruence.
        -- injection H as <- ->. exists pre, post.
           split; [reflexivity|]. split; [exact Hx|inversion Hpre; assumption].
Qed.

Lemma find_nothing {A} (f : A -> bool) (l : list A) :
  List.find f l = None <-> Forall (fun y => f y = false) l.
Proof.
  induction l as [|a l IH]; cbn [List.find].
  - split; [constructor|reflexivity].
  - destruct (f a) eqn:E.
    + split; [discriminate|]. intros H. inversion H; congruence.
    + rewrite IH. split; [constructor; assumption|intros H; inversion H; assumption].
Qed.

(** X6.  [GetBlockFromChain] returns the first block of the chain whose
    stored hash is the one asked for, and the error "block not found"
    exactly when no block of the chain has that hash. *)
Theorem GetBlockFromChain_first bc hash :
  (forall b,
     GetBlockFromChain bc hash = inl b <->
     exists pre post,
       Blocks bc = pre ++ b :: post /\ Hash b = hash
       /\ Forall (fun b' => Hash b' <> hash) pre)
  /\ (forall err,
        GetBlockFromChain bc hash = inr err <->
        err = "block not found"
        /\ Forall (fun b' => Hash b' <> hash) (Blocks bc)).
Proof.
  assert (Hno : forall l,
            Forall (fun y : Block => String.eqb (Hash y) hash = false) l
            <-> Forall (fun b' : Block => Hash b' <> hash) l).
  { intros l. apply Forall_iff. intros b'. apply String.eqb_neq. }
  unfold GetBlockFromChain. split.
  - intros b. destruct (List.find _ (Blocks bc)) as [b0|] eqn:E.
    + split.
      * intros [= <-]. apply find_first in E as [pre [post [H1 [H2 H3]]]].
        exists pre, post. split; [exact H1|].
        split; [apply String.eqb_eq, H2|apply Hno, H3].
      * intros [pre [post [H1 [H2 H3]]]]. f_equal.
        assert (E' : List.find (fun b => String.eqb (Hash b) hash) (Blocks bc) = Some b).
        { apply find_first. exists pre, post. split; [exact H1|].
          split; [apply String.eqb_eq, H2|apply Hno, H3]. }
        congruence.
    + split; [discriminate|]. intros [pre [post [H1 [H2 H3]]]].
      apply find_nothing in E. rewrite H1 in E.
      apply Forall_app in E as [_ E]. inversion E as [|? ? Hb _].
      apply String.eqb_neq in Hb. contradiction.
  - intros err. destruct (List.find _ (Blocks bc)) as [b0|] eqn:E.
    + split; [discriminate|]. intros [_ H]. apply Hno in H.
      apply find_nothing in H. congruence.
    + split.
      * intros [= <-]. split; [reflexivity|]. apply Hno, find_nothing, E.
      * intros [-> _]. reflexivity.
Qed.

(** X7.  A block that has just been added can be looked up by its hash,
    also when adding it archived a part of the chain: the lookup returns a
    block with that hash. *)
Theorem AddBlock_then_GetBlockFromChain w bc b :
  exists bc' files b',
    AddBlock w bc b = Ok (bc', files)
    /\ GetBlockFromChain bc' (Hash b) = inl b'
    /\ Hash b' = Hash b.
Proof.
  destruct (AddBlock_outcome w bc b) as [bc' [files [front [H [Htip _]]]]].
  exists bc', files.
  unfold GetBlockFromChain.
  destruct (List.find (fun b0 => String.eqb (Hash b0) (Hash b)) (Blocks bc'))
    as [b'|] eqn:E.
  - exists b'. split; [exact H|]. split; [reflexivity|].
    apply List.find_some in E as [_ E]. apply String.eqb_eq, E.
  - apply find_nothing in E. rewrite Htip in E.
    apply Forall_app in E as [_ E]. inversion E as [|? ? Hb _].
    rewrite String.eqb_refl in Hb. discriminate Hb.
Qed.

(** ** Headers *)

(** X8.  The headers of a valid chain form a linked chain themselves, one
    header per block: the first names no previous hash, and every later one
    names the hash of the header before it. *)
Theorem ExtractHeaders_linked bc :
  IsValidChain (Blocks bc) = true ->
  let headers := ExtractHeaders bc in
  length headers = length (Blocks bc)
  /\ (exists first, head headers = Some first /\ HeaderPrevHash first = "")
  /\ (forall i h h',
        headers !! i = Some h -> headers !! S i = Some h' ->
        HeaderPrevHash h' = HeaderHash h)
  /\ (forall i h,
        headers !! i = Some h ->
        exists blk, Blocks bc !! i = Some blk
          /\ HeaderHash h = CalculateHash blk /\ HeaderIndex h = Index blk
          /\ HeaderTimestamp h = Timestamp blk /\ HeaderNonce h = Nonce blk
          /\ HeaderDifficulty h = Difficulty blk).
Proof.
  intros Hvalid headers. apply IsValidChain_inv in Hvalid as [[g [Hg Hempty]] [HF HL]].
  assert (Hlookup : forall i h,
            headers !! i = Some h ->
            exists blk, Blocks bc !! i = Some blk
              /\ HeaderPrevHash h = PrevHash blk /\ HeaderHash h = Hash blk
              /\ HeaderIndex h = Index blk /\ HeaderTimestamp h = Timestamp blk
              /\ HeaderNonce h = Nonce blk /\ HeaderDifficulty h = Difficulty blk).
  { intros i h Hh. unfold headers, ExtractHeaders in Hh.
    change (List.map ?f ?l) with (f <$> l) in Hh.
    rewrite list_lookup_fmap in Hh.
    destruct (Blocks bc !! i) as [blk|]; [|discriminate Hh].
    injection Hh as <-. exists blk. cbn. repeat split; reflexivity. }
  split; [apply List.length_map|]. split; [|split].
  - unfold headers, ExtractHeaders. destruct (Blocks bc) as [|g' rest]; [discriminate Hg|].
    injection Hg as ->. eexists. split; [reflexivity|exact Hempty].
  - intros i h h' Hh Hh'.
    destruct (Hlookup i h Hh) as [blk [Hb [_ [-> _]]]].
    destruct (Hlookup (S i) h' Hh') as [blk' [Hb' [-> _]]].
    apply (HL i); assumption.
  - intros i h Hh. destruct (Hlookup i h Hh) as [blk [Hb [_ [E1 [E2 [E3 [E4 E5]]]]]]].
    exists blk. split; [exact Hb|]. rewrite Forall_lookup in HF.
    rewrite E1, (HF i blk Hb). repeat split; assumption.
Qed.

Lemma ExtractHeaders_linked_witness :
  let headers := ExtractHeaders (mkBlockchain [fork_genesis; fork_local2]) in
  IsValidChain [fork_genesis; fork_local2] = true
  /\ length headers = 2%nat
  /\ exists first, head headers = Some first /\ HeaderPrevHash first = "".
Proof.
  assert (Hvalid : IsValidChain [fork_genesis; fork_local2] = true)
    by (vm_compute; reflexivity).
  split; [exact Hvalid|].
  destruct (ExtractHeaders_linked (mkBlockchain [fork_genesis; fork_local2]) Hvalid)
    as [H1 [H2 _]].
  split; [exact H1|exact H2].
Defined.

(** ** Shards *)




(** X10.  Without shards there is nothing to assign to: for [numShards = 0]
    the beacon chain is made, and [AssignShard] panics on every
    transaction; a negative [numShards] panics when the beacon chain is
    made. *)
Theorem AssignShard_no_shards numShards tx :
  numShards <= 0 ->
  match NewBeaconChain numShards with
  | Ok bc => numShards = 0 /\ AssignShard bc tx = Panic "integer divide by zero"
  | Panic msg => numShards < 0 /\ msg = "makeslice: len out of range"
  | Timeout => False
  end.
Proof.
  intros Hn. unfold NewBeaconChain.
  destruct (numShards <? 0) eqn:E.
  - apply Z.ltb_lt in E. split; [exact E|reflexivity].
  - apply Z.ltb_ge in E. assert (numShards = 0) as -> by lia.
    split; reflexivity.
Qed.

Lemma AssignShard_no_shards_witness :
  match NewBeaconChain 0 with
  | Ok bc =>
      AssignShard bc (NewTransaction 1700000000 "Alice" "Bob" 10.5%float 1)
      = Panic "integer divide by zero"
  | _ => False
  end.
Proof.
  exact (proj2 (AssignShard_no_shards 0
                  (NewTransaction 1700000000 "Alice" "Bob" 10.5%float 1)
                  ltac:(lia))).
Defined.

(** ** Replacing the chain *)

Lemma CumulativeDifficulty_from_snoc total chain b :
  CumulativeDifficulty_from total (chain ++ [b])
  = add64 (CumulativeDifficulty_from total chain) (Difficulty b).
Proof.
  revert total. induction chain as [|c chain IH]; intros total; [reflexivity|].
  cbn [app CumulativeDifficulty_from]. apply IH.
Qed.

Lemma CumulativeDifficulty_snoc chain b :
  CumulativeDifficulty (chain ++ [b])
  = add64 (CumulativeDifficulty chain) (Difficulty b).
Proof. apply CumulativeDifficulty_from_snoc. Qed.

Lemma CumulativeDifficulty_from_range total chain :
  in_int64 total -> in_int64 (CumulativeDifficulty_from total chain).
Proof.
  revert total. induction chain as [|c chain IH]; intros total H; [exact H|].
  cbn [CumulativeDifficulty_from]. apply IH, wrap64_range.
Qed.

Lemma CumulativeDifficulty_range chain : in_int64 (CumulativeDifficulty chain).
Proof. apply CumulativeDifficulty_from_range. unfold in_int64. lia. Qed.

(** X11.  [ReplaceChain] keeps a valid local chain valid, never lowers the
    cumulative difficulty of the local chain, and raises it exactly when it
    reports a replacement. *)
Theorem ReplaceChain_keeps_valid bc newChain :
  IsValidChain (Blocks bc) = true ->
  let bc' := fst (ReplaceChain bc newChain) in
  IsValidChain (Blocks bc') = true
  /\ CumulativeDifficulty (Blocks bc) <= CumulativeDifficulty (Blocks bc')
  /\ (CumulativeDifficulty (Blocks bc) < CumulativeDifficulty (Blocks bc')
      <-> snd (ReplaceChain bc newChain) = true).
Proof.
  intros Hvalid. unfold ReplaceChain.
  destruct (IsValidChain newChain) eqn:E; cbn [negb].
  - destruct (CumulativeDifficulty newChain >? CumulativeDifficulty (Blocks bc)) eqn:G;
      cbn [fst snd Blocks].
    + apply Z.gtb_lt in G. split; [exact E|]. split; [lia|]. split; [reflexivity|lia].
    + split; [exact Hvalid|]. split; [lia|]. split; [lia|discriminate].
  - cbn [fst snd]. split; [exact Hvalid|]. split; [lia|]. split; [lia|discriminate].
Qed.

Lemma ReplaceChain_keeps_valid_witness :
  IsValidChain
    (Blocks (fst (ReplaceChain (mkBlockchain [fork_genesis; fork_local2])
                    [fork_genesis; fork_incoming2]))) = true.
Proof.
  assert (Hvalid : IsValidChain [fork_genesis; fork_local2] = true)
    by (vm_compute; reflexivity).
  exact (proj1 (ReplaceChain_keeps_valid (mkBlockchain [fork_genesis; fork_local2])
                  [fork_genesis; fork_incoming2] Hvalid)).
Defined.

(** X12.  A chain offered a second time is always turned down, and the
    local chain stays what the first offer made it: a chain replaces only a
    chain of strictly lower cumulative difficulty. *)
Theorem ReplaceChain_twice bc newChain :
  ReplaceChain (fst (ReplaceChain bc newChain)) newChain
  = (fst (ReplaceChain bc newChain), false).
Proof.
  unfold ReplaceChain.
  destruct (IsValidChain newChain) eqn:E; cbn [negb].
  - destruct (CumulativeDifficulty newChain >? CumulativeDifficulty (Blocks bc)) eqn:G;
      cbn [fst Blocks].
    + destruct (CumulativeDifficulty newChain >? CumulativeDifficulty newChain) eqn:G';
        [apply Z.gtb_lt in G'; lia|reflexivity].
    + rewrite G. reflexivity.
  - reflexivity.
Qed.

(** ** A chain from a peer *)

Lemma valid_links_ptrs_Some previous rest :
  valid_links_ptrs previous (Some <$> rest) = Ok (valid_links previous rest).
Proof.
  revert previous. induction rest as [|c rest IH]; intros previous; [reflexivity|].
  cbn [fmap list_fmap valid_links_ptrs valid_links].
  destruct (negb (String.eqb (PrevHash c) (Hash previous))); [reflexivity|].
  destruct (negb (String.eqb (Hash c) (CalculateHash c))); [reflexivity|].
  apply IH.
Qed.

Lemma IsValidChain_ptrs_Some c :
  IsValidChain_ptrs (Some <$> c) = Ok (IsValidChain c).
Proof.
  destruct c as [|g rest]; [reflexivity|].
  cbn [fmap list_fmap IsValidChain_ptrs IsValidChain].
  destruct (negb (String.eqb (PrevHash g) "")
            || negb (String.eqb (Hash g) (CalculateHash g))); [reflexivity|].
  apply valid_links_ptrs_Some.
Qed.

Lemma omap_id_Some {A} (l : list A) : omap id (Some <$> l) = l.
Proof. induction l as [|a l IH]; [reflexivity|]. cbn. f_equal. exact IH. Qed.

Lemma handleChainUpdate_Some n c :
  handleChainUpdate n (UnmarshalChain (Some <$> c))
  = if IsValidChain c then
      if CumulativeDifficulty c >? CumulativeDifficulty (Blocks (NodeBlockchain n))
      then Ok (mkNode (Address n) (Peers n) (mkBlockchain c),
               ["Local chain replaced with received chain (higher cumulative difficulty)."])
      else Ok (n, ["Received chain valid but not stronger than the current chain."])
    else Ok (n, ["Received invalid chain update."]).
Proof.
  unfold handleChainUpdate. rewrite IsValidChain_ptrs_Some, omap_id_Some.
  cbn [mbind result_bind]. unfold ReplaceChain.
  destruct (IsValidChain c); [|reflexivity]. cbn [negb].
  destruct (CumulativeDifficulty c >? _); [reflexivity|].
  destruct n; reflexivity.
Qed.

(** X13.  Handling a chain message whose data decodes to a chain of blocks
    always returns and keeps the address and the peers.  The node adopts the
    chain exactly when [IsValidChain] accepts it and its cumulative
    difficulty is strictly above that of the local chain; otherwise, and
    when the data does not decode, the node is unchanged. *)
Theorem handleChainUpdate_decoded n c :
  let local := Blocks (NodeBlockchain n) in
  (IsValidChain c = true /\ CumulativeDifficulty c > CumulativeDifficulty local ->
   exists out,
     handleChainUpdate n (UnmarshalChain (Some <$> c))
     = Ok (mkNode (Address n) (Peers n) (mkBlockchain c), out))
  /\ (~ (IsValidChain c = true
         /\ CumulativeDifficulty c > CumulativeDifficulty local) ->
      exists out, handleChainUpdate n (UnmarshalChain (Some <$> c)) = Ok (n, out))
  /\ (forall err, exists out,
        handleChainUpdate n (UnmarshalChainError err) = Ok (n, out)).
Proof.
  intros local. rewrite handleChainUpdate_Some. fold local.
  split; [|split].
  - intros [-> G]. apply Z.gt_lt, Z.gtb_lt in G. rewrite G. eexists. reflexivity.
  - intros Hnot. destruct (IsValidChain c); [|eexists; reflexivity].
    destruct (CumulativeDifficulty c >? CumulativeDifficulty local) eqn:G.
    + destruct Hnot. split; [reflexivity|]. apply Z.gtb_lt in G. lia.
    + eexists. reflexivity.
  - intros err. eexists. reflexivity.
Qed.

Lemma valid_links_ptrs_null previous pre post :
  valid_links_ptrs previous ((Some <$> pre) ++ None :: post)
  = if valid_links previous pre then Panic "nil pointer dereference" else Ok false.
Proof.
  revert previous. induction pre as [|c pre IH]; intros previous; [reflexivity|].
  cbn [fmap list_fmap app valid_links_ptrs valid_links].
  destruct (negb (String.eqb (PrevHash c) (Hash previous))); [reflexivity|].
  destruct (negb (String.eqb (Hash c) (CalculateHash c))); [reflexivity|].
  apply IH.
Qed.

(** X14.  A chain message with a null entry: the handler panics on the nil
    pointer when the entries before the null one are a valid chain or there
    are none, and rejects the chain, leaving the node unchanged, when a
    check fails before the null entry is reached. *)
Theorem handleChainUpdate_null n pre post :
  handleChainUpdate n (UnmarshalChain ((Some <$> pre) ++ None :: post))
  = if match pre with [] => true | _ => IsValidChain pre end
    then Panic "nil pointer dereference"
    else Ok (n, ["Received invalid chain update."]).
Proof.
  unfold handleChainUpdate. destruct pre as [|g pre]; [reflexivity|].
  cbn [fmap list_fmap app IsValidChain_ptrs IsValidChain].
  destruct (negb (String.eqb (PrevHash g) "")
            || negb (String.eqb (Hash g) (CalculateHash g))); [reflexivity|].
  rewrite valid_links_ptrs_null. destruct (valid_links g pre); reflexivity.
Qed.

(** ** A new block from a peer, and what the peers make of it *)

Lemma handleNewBlock_accepts n data n' c :
  handleNewBlock n data = Ok (n', Some c) ->
  Z.of_nat (length (Blocks (NodeBlockchain n))) < 2 ^ 63 ->
  exists front tip b,
    Blocks (NodeBlockchain n) = front ++ [tip]
    /\ data = UnmarshalBlock b
    /\ PrevHash b = Hash tip /\ Hash b = CalculateHash b
    /\ c = Blocks (NodeBlockchain n) ++ [b]
    /\ n' = mkNode (Address n) (Peers n) (mkBlockchain c).
Proof.
  intros H Hlen. destruct data as [err| |b]; [discriminate H| |].
  - cbn [handleNewBlock] in H.
    destruct (index _ _); discriminate H.
  - cbn [handleNewBlock] in H.
    destruct (exists_last (l := Blocks (NodeBlockchain n))) as [front [tip E]].
    { intros E. rewrite E in H. discriminate H. }
    rewrite E in H, Hlen. rewrite index_last in H by exact Hlen.
    cbn [mbind result_bind] in H.
    destruct (String.eqb_spec (PrevHash b) (Hash tip)) as [E1|]; [|discriminate H].
    destruct (String.eqb_spec (Hash b) (CalculateHash b)) as [E2|]; [|discriminate H].
    cbn [andb NodeBlockchain Blocks] in H. injection H as <- <-.
    exists front, tip, b. rewrite E. repeat split; assumption.
Qed.

Lemma handleNewBlock_declines n data n' :
  handleNewBlock n data = Ok (n', None) -> n' = n.
Proof.
  intros H. destruct data as [err| |b].
  - injection H as <-. reflexivity.
  - cbn [handleNewBlock] in H. destruct (index _ _); discriminate H.
  - cbn [handleNewBlock] in H. destruct (index _ _) as [tip| |]; try discriminate H.
    cbn [mbind result_bind] in H.
    destruct (String.eqb (PrevHash b) (Hash tip) && String.eqb (Hash b) (CalculateHash b));
      [discriminate H|].
    injection H as <-. reflexivity.
Qed.

Lemma IsValidChain_extend front tip b :
  IsValidChain (front ++ [tip]) = true ->
  PrevHash b = Hash tip -> Hash b = CalculateHash b ->
  IsValidChain ((front ++ [tip]) ++ [b]) = true.
Proof.
  intros Hvalid E1 E2. apply IsValidChain_snoc; [exact E2|].
  destruct (front ++ [tip]) as [|g rest] eqn:E; [discriminate Hvalid|].
  split; [exact Hvalid|]. rewrite E1.
  rewrite <- (last_cons_default g rest tip), <- E, List.last_last. reflexivity.
Qed.

(** X15.  Handling a new-block message keeps a valid local chain valid and
    keeps the address and the peers.  When the block is taken, the chain
    handed on to the peers is the local chain with the block at its end, and
    its cumulative difficulty is that of the old chain plus the difficulty
    of the block; otherwise the node is unchanged. *)
Theorem handleNewBlock_keeps_valid n data n' sent :
  IsValidChain (Blocks (NodeBlockchain n)) = true ->
  Z.of_nat (length (Blocks (NodeBlockchain n))) < 2 ^ 63 ->
  handleNewBlock n data = Ok (n', sent) ->
  IsValidChain (Blocks (NodeBlockchain n')) = true
  /\ Address n' = Address n /\ Peers n' = Peers n
  /\ match sent with
     | Some c =>
         exists b, data = UnmarshalBlock b
           /\ c = Blocks (NodeBlockchain n) ++ [b]
           /\ Blocks (NodeBlockchain n') = c
           /\ CumulativeDifficulty c
              = add64 (CumulativeDifficulty (Blocks (NodeBlockchain n))) (Difficulty b)
     | None => n' = n
     end.
Proof.
  intros Hvalid Hlen H. destruct sent as [c|].
  - destruct (handleNewBlock_accepts n data n' c H Hlen)
      as [front [tip [b [E [-> [E1 [E2 [-> ->]]]]]]]].
    cbn [NodeBlockchain Blocks Address Peers].
    split; [rewrite E in *; apply IsValidChain_extend; assumption|].
    split; [reflexivity|]. split; [reflexivity|].
    exists b. split; [reflexivity|]. split; [reflexivity|]. split; [reflexivity|].
    apply CumulativeDifficulty_snoc.
  - apply handleNewBlock_declines in H as ->.
    split; [exact Hvalid|]. repeat split; reflexivity.
Qed.

Lemma handleNewBlock_keeps_valid_witness :
  let n := mkNode "localhost:8000" ["localhost:8001"] (mkBlockchain [fork_genesis]) in
  exists n',
    handleNewBlock n (UnmarshalBlock fork_local2)
    = Ok (n', Some [fork_genesis; fork_local2])
    /\ IsValidChain (Blocks (NodeBlockchain n')) = true.
Proof.
  eexists. split; [vm_compute; reflexivity|].
  refine (proj1 (handleNewBlock_keeps_valid
                   (mkNode "localhost:8000" ["localhost:8001"] (mkBlockchain [fork_genesis]))
                   (UnmarshalBlock fork_local2) _ (Some [fork_genesis; fork_local2])
                   _ _ _)).
  - vm_compute. reflexivity.
  - vm_compute. reflexivity.
  - vm_compute. reflexivity.
Defined.

(** X16.  A block taken from a new-block message travels on only if its
    difficulty is positive.  A peer whose chain is the valid chain the node
    had adopts the chain the node hands on when the difficulty of the new
    block is positive (and the sum fits an [int]); when it is zero or
    negative the peer finds the chain valid but not stronger and keeps its
    own. *)
Theorem NewBlock_propagates n1 n2 b n1' c :
  IsValidChain (Blocks (NodeBlockchain n1)) = true ->
  Z.of_nat (length (Blocks (NodeBlockchain n1))) < 2 ^ 63 ->
  handleNewBlock n1 (UnmarshalBlock b) = Ok (n1', Some c) ->
  Blocks (NodeBlockchain n2) = Blocks (NodeBlockchain n1) ->
  let total := CumulativeDifficulty (Blocks (NodeBlockchain n1)) in
  (0 < Difficulty b -> total + Difficulty b < 2 ^ 63 ->
   handleChainUpdate n2 (UnmarshalChain (Some <$> c))
   = Ok (mkNode (Address n2) (Peers n2) (mkBlockchain c),
         ["Local chain replaced with received chain (higher cumulative difficulty)."]))
  /\ (Difficulty b <= 0 -> - 2 ^ 63 <= total + Difficulty b ->
      handleChainUpdate n2 (UnmarshalChain (Some <$> c))
      = Ok (n2, ["Received chain valid but not stronger than the current chain."])).
Proof.
  intros Hvalid Hlen H Hsame total.
  destruct (handleNewBlock_accepts n1 _ n1' c H Hlen)
    as [front [tip [b' [E [[= <-] [E1 [E2 [Hc _]]]]]]]].
  assert (Hvalid' : IsValidChain c = true).
  { rewrite Hc, E. apply IsValidChain_extend; [rewrite <- E|..]; assumption. }
  assert (Hrange := CumulativeDifficulty_range (Blocks (NodeBlockchain n1))).
  fold total in Hrange. unfold in_int64 in Hrange.
  rewrite handleChainUpdate_Some, Hvalid', Hsame. fold total.
  rewrite Hc, CumulativeDifficulty_snoc. fold total. unfold add64.
  split; intros Hd Hfit.
  - rewrite wrap64_id by (unfold in_int64; lia).
    destruct (total + Difficulty b >? total) eqn:G; [reflexivity|].
    rewrite Z.gtb_ltb in G. apply Z.ltb_ge in G. lia.
  - rewrite wrap64_id by (unfold in_int64; lia).
    destruct (total + Difficulty b >? total) eqn:G; [|reflexivity].
    apply Z.gtb_lt in G. lia.
Qed.

Lemma NewBlock_propagates_witness :
  let n1 := mkNode "localhost:8000" ["localhost:8001"] (mkBlockchain [fork_genesis]) in
  let n2 := mkNode "localhost:8001" ["localhost:8000"] (mkBlockchain [fork_genesis]) in
  handleChainUpdate n2 (UnmarshalChain (Some <$> [fork_genesis; fork_local2]))
  = Ok (mkNode (Address n2) (Peers n2) (mkBlockchain [fork_genesis; fork_local2]),
        ["Local chain replaced with received chain (higher cumulative difficulty)."]).
Proof.
  refine (proj1 (NewBlock_propagates
                   (mkNode "localhost:8000" ["localhost:8001"] (mkBlockchain [fork_genesis]))
                   (mkNode "localhost:8001" ["localhost:8000"] (mkBlockchain [fork_genesis]))
                   fork_local2
                   (mkNode "localhost:8000" ["localhost:8001"]
                      (mkBlockchain [fork_genesis; fork_local2]))
                   [fork_genesis; fork_local2] _ _ _ _) _ _).
  - vm_compute. reflexivity.
  - vm_compute. reflexivity.
  - vm_compute. reflexivity.
  - reflexivity.
  - vm_compute. reflexivity.
  - vm_compute. reflexivity.
Defined.

(** ** Peer lists *)

#[local] Set Warnings "-clear-no-such-hyp".

Lemma contains_elem_of slice item : contains slice item = true <-> item ∈ slice.
Proof.
  induction slice as [|s rest IH]; cbn [contains].
  - rewrite elem_of_nil. split; [discriminate|tauto].
  - rewrite elem_of_cons.
    destruct (String.eqb_spec s item) as [->|Hne]; [tauto|].
    rewrite IH. split; [tauto|]. intros [H|H]; [congruence|exact H].
Qed.

Lemma add_peers_spec address received peers updated :
  exists added,
    fold_left (add_peer address) received (peers, updated)
    = (peers ++ added, updated || negb (Nat.eqb (length added) 0))
    /\ NoDup added
    /\ forall p, p ∈ added <-> p ∈ received /\ p <> address /\ p ∉ peers.
Proof.
  revert peers updated. induction received as [|r received IH]; intros peers updated.
  - exists []. cbn [fold_left]. rewrite app_nil_r, orb_false_r.
    split; [reflexivity|]. split; [constructor|]. set_solver.
  - cbn [fold_left]. unfold add_peer at 2. cbn [fst].
    destruct (String.eqb_spec r address) as [->|Hne]; cbn [negb andb].
    + destruct (IH peers updated) as [added [E [Hnd Hin]]].
      exists added. split; [exact E|]. split; [exact Hnd|]. set_solver.
    + destruct (contains peers r) eqn:C; cbn [negb].
      * apply contains_elem_of in C.
        destruct (IH peers updated) as [added [E [Hnd Hin]]].
        exists added. split; [exact E|]. split; [exact Hnd|]. set_solver.
      * assert (Hnot : r ∉ peers).
        { intros H. apply contains_elem_of in H. congruence. }
        destruct (IH (peers ++ [r]) true) as [added [E [Hnd Hin]]].
        exists (r :: added). rewrite E, <- app_assoc. cbn [app length Nat.eqb negb].
        rewrite orb_true_r. split; [reflexivity|]. split.
        -- constructor; [|exact Hnd]. set_solver.
        -- intros p. destruct (decide (p = r)) as [->|Hpr]; set_solver.
Qed.

(** X17.  Handling a peer list keeps the address, the chain and the peers
    already known, in their order, and puts behind them, each once, the
    received addresses that are not the node's own and were not known:
    afterwards a peer is known exactly when it was known before or was
    received and is not the own address. *)
Theorem handlePeerList_merge n receivedPeers :
  let n' := fst (handlePeerList n (UnmarshalPeers receivedPeers)) in
  Address n' = Address n
  /\ NodeBlockchain n' = NodeBlockchain n
  /\ exists added,
       Peers n' = Peers n ++ added
       /\ NoDup added
       /\ (forall p, p ∈ added <->
                     p ∈ receivedPeers /\ p <> Address n /\ p ∉ Peers n)
       /\ (forall p, p ∈ Peers n' <->
                     p ∈ Peers n \/ (p ∈ receivedPeers /\ p <> Address n))
       /\ (NoDup (Peers n) -> NoDup (Peers n'))
       /\ (Address n ∉ Peers n -> Address n ∉ Peers n').
Proof.
  cbn [handlePeerList fst Address NodeBlockchain Peers].
  split; [reflexivity|]. split; [reflexivity|].
  destruct (add_peers_spec (Address n) receivedPeers (Peers n) false)
    as [added [E [Hnd Hin]]].
  exists added. rewrite E. cbn [fst].
  split; [reflexivity|]. split; [exact Hnd|]. split; [exact Hin|]. split; [|split].
  - intros p. destruct (decide (p ∈ Peers n)); set_solver.
  - intros Hold. apply NoDup_app. set_solver.
  - set_solver.
Qed.

Lemma add_peers_known address received peers updated :
  (forall p, p ∈ received -> p = address \/ p ∈ peers) ->
  fold_left (add_peer address) received (peers, updated) = (peers, updated).
Proof.
  induction received as [|r received IH]; intros H; [reflexivity|].
  cbn [fold_left]. unfold add_peer at 2. cbn [fst].
  destruct (String.eqb_spec r address) as [->|Hne]; cbn [negb andb].
  - apply IH. set_solver.
  - destruct (H r ltac:(set_solver)) as [->|Hr]; [contradiction|].
    apply contains_elem_of in Hr. rewrite Hr. cbn [negb].
    apply IH. set_solver.
Qed.

(** X18.  Handling the same peer list a second time changes nothing and
    prints nothing. *)
Theorem handlePeerList_again n receivedPeers :
  let n' := fst (handlePeerList n (UnmarshalPeers receivedPeers)) in
  handlePeerList n' (UnmarshalPeers receivedPeers) = (n', []).
Proof.
  cbn [handlePeerList fst Address NodeBlockchain Peers].
  destruct (add_peers_spec (Address n) receivedPeers (Peers n) false)
    as [added [E [_ Hin]]].
  rewrite E. cbn [fst]. rewrite add_peers_known; [reflexivity|].
  intros p Hp. destruct (decide (p = Address n)) as [->|Hne]; [tauto|].
  destruct (decide (p ∈ Peers n)); set_solver.
Qed.

(** ** Votes and proposals *)

Lemma add64_wrap64 x y : add64 (wrap64 x) y = wrap64 (x + y).
Proof.
  unfold add64, wrap64. f_equal.
  replace ((x + 2 ^ 63) mod 2 ^ 64 - 2 ^ 63 + y + 2 ^ 63)
    with ((x + 2 ^ 63) mod 2 ^ 64 + y) by lia.
  rewrite Zplus_mod_idemp_l. f_equal. lia.
Qed.

Lemma CastVote_approved hcm idx validator stake c :
  0 <= idx ->
  CandidateBlocks hcm !! Z.to_nat idx = Some c ->
  Stakeholders hcm !! validator = Some stake ->
  CastVote hcm idx validator true
  = (mkHCM (alter (add_votes (int_of_float (stake * 100)%float))
                  (Z.to_nat idx) (CandidateBlocks hcm))
           (Stakeholders hcm) (VoteThreshold hcm), []).
Proof.
  intros Hidx Hc Hs. unfold CastVote. apply lookup_lt_Some in Hc.
  destruct (idx <? 0) eqn:E1; [apply Z.ltb_lt in E1; lia|].
  destruct (idx >=? Z.of_nat (length (CandidateBlocks hcm))) eqn:E2;
    [apply Z.geb_le in E2; lia|].
  cbn [orb]. rewrite Hs. reflexivity.
Qed.

(** X19.  An approving vote of a registered validator for a candidate in
    range adds the validator's weight, [int(stake * 100)], to the votes of
    that candidate and changes nothing else: the other candidates, the
    block and the work of the candidate, the stakes and the threshold stay
    as they were, and nothing is printed. *)
Theorem CastVote_counts hcm idx validator stake c :
  0 <= idx ->
  CandidateBlocks hcm !! Z.to_nat idx = Some c ->
  Stakeholders hcm !! validator = Some stake ->
  let hcm' := fst (CastVote hcm idx validator true) in
  snd (CastVote hcm idx validator true) = []
  /\ Stakeholders hcm' = Stakeholders hcm
  /\ VoteThreshold hcm' = VoteThreshold hcm
  /\ length (CandidateBlocks hcm') = length (CandidateBlocks hcm)
  /\ CandidateBlocks hcm' !! Z.to_nat idx
     = Some (mkCandidate (CBlock c) (Work c)
               (add64 (ValidVotes c) (int_of_float (stake * 100)%float)))
  /\ forall i, i <> Z.to_nat idx ->
       CandidateBlocks hcm' !! i = CandidateBlocks hcm !! i.
Proof.
  intros Hidx Hc Hs. rewrite (CastVote_approved hcm idx validator stake c) by assumption.
  cbn [fst snd Stakeholders VoteThreshold CandidateBlocks].
  split; [reflexivity|]. split; [reflexivity|]. split; [reflexivity|].
  split; [apply length_alter|]. split.
  - rewrite list_lookup_alter, Hc. cbn. rewrite decide_True by reflexivity. reflexivity.
  - intros i Hi. apply list_lookup_alter_ne. congruence.
Qed.

Lemma CastVote_counts_witness :
  List.map ValidVotes (CandidateBlocks (fst (CastVote quorum_manager 0 "B" true)))
  = [3000].
Proof.
  destruct (CastVote_counts quorum_manager 0 "B" 30%float
              (mkCandidate quorum_candidate 0 0)
              ltac:(lia) ltac:(reflexivity) ltac:(reflexivity))
    as [_ [_ [_ [Hlen [Hc _]]]]].
  destruct (CandidateBlocks (fst (CastVote quorum_manager 0 "B" true)))
    as [|c0 [|c1 rest]]; [discriminate Hlen| |discriminate Hlen].
  injection Hc as ->. vm_compute. reflexivity.
Defined.

(** X20.  [CastVote] keeps no record of who has voted: a validator that
    votes [k] times for a candidate adds [k] times its weight to the votes
    of that candidate (in 64-bit arithmetic). *)
Theorem CastVote_repeated k hcm idx validator stake c :
  0 <= idx ->
  CandidateBlocks hcm !! Z.to_nat idx = Some c ->
  Stakeholders hcm !! validator = Some stake ->
  in_int64 (ValidVotes c) ->
  CandidateBlocks (vote_times k hcm idx validator) !! Z.to_nat idx
  = Some (mkCandidate (CBlock c) (Work c)
            (wrap64 (ValidVotes c
                     + Z.of_nat k * int_of_float (stake * 100)%float))).
Proof.
  intros Hidx Hc Hs Hv. set (w := int_of_float (stake * 100)%float).
  assert (H : CandidateBlocks (vote_times k hcm idx validator) !! Z.to_nat idx
              = Some (mkCandidate (CBlock c) (Work c)
                        (wrap64 (ValidVotes c + Z.of_nat k * w)))
              /\ Stakeholders (vote_times k hcm idx validator) = Stakeholders hcm).
  { induction k as [|k [IHc IHs]].
    - unfold vote_times. cbn [Nat.iter nat_rect]. split; [|reflexivity].
      rewrite Hc, Z.add_0_r, wrap64_id by exact Hv. destruct c; reflexivity.
    - change (vote_times (S k) hcm idx validator)
        with (fst (CastVote (vote_times k hcm idx validator) idx validator true)).
      rewrite <- IHs in Hs.
      rewrite (CastVote_approved _ idx validator stake _ Hidx IHc Hs).
      cbn [fst CandidateBlocks Stakeholders]. split; [|exact IHs].
      rewrite list_lookup_alter, IHc. cbn. rewrite decide_True by reflexivity.
      unfold add_votes. cbn [CBlock Work ValidVotes]. fold w.
      rewrite add64_wrap64. do 3 f_equal. lia. }
  exact (proj1 H).
Qed.

Lemma CastVote_repeated_witness :
  CandidateBlocks (vote_times 3 quorum_manager 0 "C") !! 0%nat
  = Some (mkCandidate quorum_candidate 0 6000).
Proof.
  exact (CastVote_repeated 3 quorum_manager 0 "C" 20%float
           (mkCandidate quorum_candidate 0 0)
           ltac:(lia) ltac:(reflexivity) ltac:(reflexivity)
           ltac:(vm_compute; split; [discriminate|reflexivity])).
Defined.

(** X21.  The calls of [CastVote] that change nothing: a candidate index out
    of range is reported, whatever the vote; in range, a rejecting vote is
    dropped without a word, also from an unknown validator, and an approving
    vote of an unknown validator is reported. *)
Theorem CastVote_ignored hcm idx validator vote :
  (idx < 0 \/ Z.of_nat (length (CandidateBlocks hcm)) <= idx ->
   CastVote hcm idx validator vote = (hcm, ["Invalid candidate index"]))
  /\ (0 <= idx < Z.of_nat (length (CandidateBlocks hcm)) ->
      (vote = false -> CastVote hcm idx validator vote = (hcm, []))
      /\ (vote = true -> Stakeholders hcm !! validator = None ->
          CastVote hcm idx validator vote
          = (hcm, ["Validator " +:+ validator +:+ " not found"])))
  /\ (fst (CastVote hcm idx validator vote) <> hcm ->
      0 <= idx < Z.of_nat (length (CandidateBlocks hcm))
      /\ vote = true /\ is_Some (Stakeholders hcm !! validator)).
Proof.
  unfold CastVote.
  destruct (idx <? 0) eqn:E1; [apply Z.ltb_lt in E1|apply Z.ltb_ge in E1]; cbn [orb].
  { split; [reflexivity|]. split; [lia|]. intros H. destruct H. reflexivity. }
  destruct (idx >=? Z.of_nat (length (CandidateBlocks hcm))) eqn:E2.
  { apply Z.geb_le in E2.
    split; [reflexivity|]. split; [lia|]. intros H. destruct H. reflexivity. }
  assert (Hin : idx < Z.of_nat (length (CandidateBlocks hcm))).
  { destruct (Z.geb_spec idx (Z.of_nat (length (CandidateBlocks hcm)))); [discriminate|lia]. }
  split; [lia|]. destruct vote.
  - destruct (Stakeholders hcm !! validator) as [stake|] eqn:Hs.
    + split; [intros _; split; [discriminate|intros _ H; discriminate H]|].
      intros _. split; [lia|]. split; [reflexivity|]. eexists; reflexivity.
    + split; [intros _; split; [discriminate|reflexivity]|].
      intros H. destruct H. reflexivity.
  - split; [intros _; split; [reflexivity|discriminate]|].
    intros H. destruct H. reflexivity.
Qed.

Lemma first_at_least_snoc threshold cs c :
  first_at_least threshold (cs ++ [c])
  = match first_at_least threshold cs with
    | Some b => Some b
    | None => if ValidVotes c >=? threshold then Some (CBlock c) else None
    end.
Proof.
  induction cs as [|c0 cs IH]; [reflexivity|].
  cbn [app first_at_least]. destruct (ValidVotes c0 >=? threshold); [reflexivity|exact IH].
Qed.

(** X22.  Proposing a block never changes what [FinalizeBlock] already
    returns: the candidate comes last, with no votes and the nonce of the
    block as its work.  When no earlier candidate qualifies, the new one is
    finalized at once, without a vote, if the threshold is zero or less. *)
Theorem ProposeBlock_FinalizeBlock hcm b totalStake :
  CandidateBlocks (ProposeBlock hcm b)
  = CandidateBlocks hcm ++ [mkCandidate b (Nonce b) 0]
  /\ FinalizeBlock (ProposeBlock hcm b) totalStake
     = match FinalizeBlock hcm totalStake with
       | Some final => Some final
       | None => if finalize_threshold hcm totalStake <=? 0 then Some b else None
       end.
Proof.
  split; [reflexivity|]. unfold FinalizeBlock, ProposeBlock.
  cbn [CandidateBlocks]. rewrite first_at_least_snoc.
  change (finalize_threshold (mkHCM _ (Stakeholders hcm) (VoteThreshold hcm)) totalStake)
    with (finalize_threshold hcm totalStake).
  destruct (first_at_least _ (CandidateBlocks hcm)); [reflexivity|].
  cbn [ValidVotes CBlock]. rewrite Z.geb_leb. reflexivity.
Qed.

(** ** Accounts *)

(** X23.  A transaction is rejected exactly when the balance of the sender is
    below the amount.  An accepted one writes the entries of the sender and
    of the recipient and no other: the sender's is the balance less the
    amount, the recipient's its balance plus the amount (on top of the debit
    when the two are the same account).  A coinbase reward writes the entry
    of the recipient and no other. *)
Theorem Ledger_frame l tx recipient reward :
  ((balance l (Sender tx) <? Amount tx)%float = true ->
   ProcessTransaction l tx = (l, Some "insufficient funds"))
  /\ ((balance l (Sender tx) <? Amount tx)%float = false ->
      let l' := fst (ProcessTransaction l tx) in
      snd (ProcessTransaction l tx) = None
      /\ (forall k, k <> Sender tx -> k <> Recipient tx -> l' !! k = l !! k)
      /\ (Sender tx <> Recipient tx ->
          l' !! Sender tx = Some (balance l (Sender tx) - Amount tx)%float
          /\ l' !! Recipient tx = Some (balance l (Recipient tx) + Amount tx)%float)
      /\ (Sender tx = Recipient tx ->
          l' !! Sender tx
          = Some (balance l (Sender tx) - Amount tx + Amount tx)%float))
  /\ (let l' := ProcessCoinbaseTransaction l recipient reward in
      l' !! recipient = Some (balance l recipient + reward)%float
      /\ forall k, k <> recipient -> l' !! k = l !! k).
Proof.
  unfold ProcessTransaction, ProcessCoinbaseTransaction.
  split; [intros ->; reflexivity|]. split.
  - intros ->. cbn [fst snd]. split; [reflexivity|]. split; [|split].
    + intros k H1 H2. rewrite !lookup_insert_ne by congruence. reflexivity.
    + intros Hne. split.
      * rewrite lookup_insert_ne by congruence. apply lookup_insert_eq.
      * rewrite lookup_insert_eq. unfold balance at 1.
        rewrite lookup_insert_ne by congruence. reflexivity.
    + intros <-. rewrite lookup_insert_eq. unfold balance at 1.
      rewrite lookup_insert_eq. reflexivity.
  - split; [apply lookup_insert_eq|]. intros k Hk. apply lookup_insert_ne. congruence.
Qed.

Lemma ltb_zero_asym a : (a <? 0)%float = true -> (0 <? a)%float = false.
Proof.
  rewrite !ltb_spec. change (Prim2SF 0) with (S754_zero false).
  destruct (Prim2SF a) as [s|s| |s m e]; try destruct s; cbn; congruence.
Qed.

(** X24.  The sign of the amount is never looked at.  A transaction with a
    negative amount from an account whose balance is zero, or that has no
    entry, is accepted: the sender is credited with the amount out of
    nothing and the recipient debited. *)
Theorem ProcessTransaction_negative_amount l tx :
  (Amount tx <? 0)%float = true ->
  balance l (Sender tx) = 0%float ->
  Sender tx <> Recipient tx ->
  let l' := fst (ProcessTransaction l tx) in
  snd (ProcessTransaction l tx) = None
  /\ l' !! Sender tx = Some (0 - Amount tx)%float
  /\ l' !! Recipient tx = Some (balance l (Recipient tx) + Amount tx)%float.
Proof.
  intros Hneg Hzero Hne. unfold ProcessTransaction.
  rewrite Hzero, (ltb_zero_asym _ Hneg). cbn [fst snd].
  split; [reflexivity|]. split.
  - rewrite lookup_insert_ne by congruence. apply lookup_insert_eq.
  - rewrite lookup_insert_eq. unfold balance at 1.
    rewrite lookup_insert_ne by congruence. reflexivity.
Qed.

Lemma ProcessTransaction_negative_amount_witness :
  let l := <["Alice" := 100%float]> (∅ : gmap string float) in
  let tx := NewTransaction 1700000000 "Mallory" "Alice" (-40)%float 1 in
  snd (ProcessTransaction l tx) = None
  /\ fst (ProcessTransaction l tx) !! "Mallory" = Some (0 - -40)%float
  /\ fst (ProcessTransaction l tx) !! "Alice" = Some (100 + -40)%float.
Proof.
  exact (ProcessTransaction_negative_amount
           (<["Alice" := 100%float]> (∅ : gmap string float))
           (NewTransaction 1700000000 "Mallory" "Alice" (-40)%float 1)
           ltac:(vm_compute; reflexivity) ltac:(vm_compute; reflexivity)
           ltac:(discriminate)).
Defined.

(** ** Creating blocks from the pool *)

Lemma CreateBlock_mined fuel nowTx nowBlock index prevHash relationshipType
    receivers text audio video txPool difficulty minerAddress reward b pool :
  CreateBlock fuel nowTx nowBlock index prevHash relationshipType receivers
    text audio video txPool difficulty minerAddress reward = Ok (b, pool) ->
  let coinbaseTx := NewTransaction nowTx "COINBASE" minerAddress reward 0 in
  pool = mkPool (coinbaseTx :: PoolTransactions txPool)
  /\ 0 <= difficulty
  /\ (Z.to_nat difficulty <= leading_zeros (Hash b))%nat
  /\ exists k,
       b = mined k
             {| Index := index; Timestamp := nowBlock; PrevHash := prevHash;
                Hash := ""; Nonce := 0; RelationshipType := relationshipType;
                Receivers := receivers; TextData := text; AudioData := audio;
                VideoData := video;
                Transactions := coinbaseTx :: PoolTransactions txPool;
                SubBlocks := []; Difficulty := difficulty; Category := "main" |}.
Proof.
  unfold CreateBlock. intros H.
  apply bind_Ok in H as [b0 [Hmine H]]. injection H as <- <-.
  apply MineBlock_Ok in Hmine as [Hd [k [_ [-> [Hz _]]]]].
  cbn [PoolTransactions] in *. split; [reflexivity|]. split; [exact Hd|].
  split; [exact Hz|]. exists k. reflexivity.
Qed.

(** X25.  The first transaction of every block [CreateBlock] returns is the
    coinbase transaction that pays the reward to the miner, and the rest are
    the transactions of the pool, in their order.  The block has no
    sub-blocks, carries the timestamp and the payloads it was given, and its
    hash begins with at least [difficulty] zeros.  The pool is left holding
    the transactions of the block, the coinbase transaction included. *)
Theorem CreateBlock_coinbase_first fuel nowTx nowBlock index prevHash
    relationshipType receivers text audio video txPool difficulty minerAddress
    reward b pool :
  CreateBlock fuel nowTx nowBlock index prevHash relationshipType receivers
    text audio video txPool difficulty minerAddress reward = Ok (b, pool) ->
  Transactions b
  = NewTransaction nowTx "COINBASE" minerAddress reward 0 :: PoolTransactions txPool
  /\ PoolTransactions pool = Transactions b
  /\ SubBlocks b = [] /\ Timestamp b = nowBlock
  /\ RelationshipType b = relationshipType /\ Receivers b = receivers
  /\ TextData b = text /\ AudioData b = audio /\ VideoData b = video
  /\ (Z.to_nat difficulty <= leading_zeros (Hash b))%nat.
Proof.
  intros H. apply CreateBlock_mined in H as [-> [_ [Hz [k ->]]]].
  repeat split; try reflexivity. exact Hz.
Qed.

Lemma CreateBlock_coinbase_first_witness :
  exists b pool,
    CreateBlock 1 1700000000 1700000000 0 "" "one-to-one" ["ReceiverA"]
      "Text" "Audio" "Video"
      (AddTransaction (mkPool []) (NewTransaction 1700000000 "Alice" "Bob" 10.5%float 1))
      0 "Miner1" 12.5%float = Ok (b, pool)
    /\ Transactions b
       = [NewTransaction 1700000000 "COINBASE" "Miner1" 12.5%float 0;
          NewTransaction 1700000000 "Alice" "Bob" 10.5%float 1].
Proof.
  destruct (CreateBlock 1 1700000000 1700000000 0 "" "one-to-one" ["ReceiverA"]
              "Text" "Audio" "Video"
              (AddTransaction (mkPool [])
                 (NewTransaction 1700000000 "Alice" "Bob" 10.5%float 1))
              0 "Miner1" 12.5%float) as [[b pool]|msg|] eqn:E;
    [|vm_compute in E; discriminate E..].
  exists b, pool. split; [reflexivity|].
  exact (proj1 (CreateBlock_coinbase_first _ _ _ _ _ _ _ _ _ _ _ _ _ _ _ _ E)).
Defined.

(** X26.  The pool is not emptied by [CreateBlock].  A second block created
    from the pool as the first left it carries its own coinbase transaction
    followed by all the transactions of the first block, the first coinbase
    transaction among them; created after [Clear] and [AddTransaction], it
    carries its coinbase transaction and the transactions added since. *)
Theorem CreateBlock_pool_carried fuel nowTx1 nowBlock1 index1 prevHash1 rel1
    receivers1 text1 audio1 video1 txPool difficulty1 miner1 reward1 b1 pool1
    nowTx2 nowBlock2 index2 prevHash2 rel2 receivers2 text2 audio2 video2
    poolBetween difficulty2 miner2 reward2 b2 pool2 :
  CreateBlock fuel nowTx1 nowBlock1 index1 prevHash1 rel1 receivers1
    text1 audio1 video1 txPool difficulty1 miner1 reward1 = Ok (b1, pool1) ->
  CreateBlock fuel nowTx2 nowBlock2 index2 prevHash2 rel2 receivers2
    text2 audio2 video2 poolBetween difficulty2 miner2 reward2 = Ok (b2, pool2) ->
  (poolBetween = pool1 ->
   Transactions b2
   = NewTransaction nowTx2 "COINBASE" miner2 reward2 0 :: Transactions b1)
  /\ (forall tx, poolBetween = AddTransaction (Clear pool1) tx ->
        Transactions b2 = [NewTransaction nowTx2 "COINBASE" miner2 reward2 0; tx]).
Proof.
  intros H1 H2.
  apply CreateBlock_mined in H1 as [-> [_ [_ [k1 ->]]]].
  apply CreateBlock_mined in H2 as [_ [_ [_ [k2 ->]]]].
  split.
  - intros ->. reflexivity.
  - intros tx ->. reflexivity.
Qed.

Lemma CreateBlock_pool_carried_witness :
  exists b1 pool1 b2 pool2,
    CreateBlock 1 1700000000 1700000000 0 "" "one-to-one" ["ReceiverA"]
      "Text" "Audio" "Video" (mkPool []) 0 "Miner1" 12.5%float = Ok (b1, pool1)
    /\ CreateBlock 1 1700000010 1700000010 1 (Hash b1) "one-to-many" ["ReceiverA"]
         "Text" "Audio" "Video" pool1 0 "Miner1" 12.5%float = Ok (b2, pool2)
    /\ Transactions b2
       = NewTransaction 1700000010 "COINBASE" "Miner1" 12.5%float 0 :: Transactions b1.
Proof.
  destruct (CreateBlock 1 1700000000 1700000000 0 "" "one-to-one" ["ReceiverA"]
              "Text" "Audio" "Video" (mkPool []) 0 "Miner1" 12.5%float)
    as [[b1 pool1]|msg|] eqn:E1; [|vm_compute in E1; discriminate E1..].
  destruct (CreateBlock 1 1700000010 1700000010 1 (Hash b1) "one-to-many"
              ["ReceiverA"] "Text" "Audio" "Video" pool1 0 "Miner1" 12.5%float)
    as [[b2 pool2]|msg|] eqn:E2;
    [|vm_compute in E1; injection E1 as <- <-; vm_compute in E2; discriminate E2..].
  exists b1, pool1, b2, pool2. split; [reflexivity|]. split; [exact E2|].
  exact (proj1 (CreateBlock_pool_carried _ _ _ _ _ _ _ _ _ _ _ _ _ _ _ _
                  _ _ _ _ _ _ _ _ _ _ _ _ _ _ _ E1 E2) eq_refl).
Defined.

(** X27.  Mining a block that has been mined changes nothing: [MineBlock]
    returns the block as it is at the first attempt, for the difficulty it
    was mined at and for every lower one. *)
Theorem MineBlock_again fuel b d b' fuel' d' :
  MineBlock fuel b d = Ok b' ->
  0 <= d' <= d ->
  MineBlock (S fuel') b' d' = Ok b'.
Proof.
  intros H Hd'. apply MineBlock_Ok in H as [Hd [k [_ [Hb [Hz _]]]]].
  assert (Hhash : Hash b' = CalculateHash b') by (rewrite Hb; apply mined_hash).
  assert (Hsame : set_Nonce (nonce_after 0 (Nonce b')) b' = b') by (destruct b'; reflexivity).
  assert (Hmined : mined 0 b' = b').
  { unfold mined. rewrite Hsame. apply set_Hash_id, Hhash. }
  rewrite <- Hmined at 2. apply MineBlock_enough; [lia| |intros j Hj; lia|lia].
  unfold attempt_hash. rewrite Hsame, <- Hhash. lia.
Qed.

Lemma MineBlock_again_witness :
  let b := sample_block 0 ["r"] 0 in
  MineBlock 100 b 1 = Ok (mined 1 b)
  /\ MineBlock 1 (mined 1 b) 1 = Ok (mined 1 b).
Proof.
  assert (H : MineBlock 100 (sample_block 0 ["r"] 0) 1
              = Ok (mined 1 (sample_block 0 ["r"] 0))) by (vm_compute; reflexivity).
  split; [exact H|].
  apply (MineBlock_again 100 (sample_block 0 ["r"] 0) 1 _ 0 1 H). lia.
Defined.

(** ** Auto-mining *)

Lemma autoMine_idle fuel w nowTx nowBlock text audio video difficulty miner reward st :
  PoolTransactions (minerPool st) = [] ->
  autoMine fuel w nowTx nowBlock text audio video difficulty miner reward st
  = Ok (st, []).
Proof. unfold autoMine. intros ->. reflexivity. Qed.

Lemma tip_hash_Ok (blocks : list Block) :
  Z.of_nat (length blocks) < 2 ^ 63 ->
  (if Z.of_nat (length blocks) >? 0
   then tip ← index blocks (sub64 (Z.of_nat (length blocks)) 1); Ok (Hash tip)
   else Ok "")
  = Ok (match last blocks with Some tip => Hash tip | None => "" end).
Proof.
  intros Hlen. induction blocks as [|tip front _] using rev_ind; [reflexivity|].
  rewrite index_last by exact Hlen. rewrite last_snoc.
  rewrite List.length_app. cbn [length].
  destruct (Z.of_nat (length front + 1) >? 0) eqn:E; [reflexivity|].
  rewrite Z.gtb_ltb in E. apply Z.ltb_ge in E. lia.
Qed.

(** X28.  One turn of the auto-mining loop.  With an empty pool nothing
    changes.  Otherwise the pool is emptied, the miner is credited with the
    reward, and the new tip is a block whose index is the number of blocks
    the chain had, whose previous hash is the hash of the old tip (empty on
    an empty chain) and whose transactions are the coinbase transaction
    followed by the pending ones; when nothing was archived, the chain has
    grown by that block and is valid if it was valid or empty before. *)
Theorem autoMine_step fuel w nowTx nowBlock text audio video difficulty miner
    reward st st' files :
  let blocks := Blocks (minerChain st) in
  let pending := PoolTransactions (minerPool st) in
  Z.of_nat (length blocks) < 2 ^ 63 ->
  autoMine fuel w nowTx nowBlock text audio video difficulty miner reward st
  = Ok (st', files) ->
  (pending = [] -> st' = st /\ files = [])
  /\ (pending <> [] ->
      minerPool st' = mkPool []
      /\ minerLedger st' = ProcessCoinbaseTransaction (minerLedger st) miner reward
      /\ exists b front,
           Blocks (minerChain st') = front ++ [b]
           /\ Index b = Z.of_nat (length blocks)
           /\ PrevHash b = match last blocks with Some tip => Hash tip | None => "" end
           /\ Transactions b
              = NewTransaction nowTx "COINBASE" miner reward 0 :: pending
           /\ hash_valid b
           /\ (files = [] ->
               front = blocks
               /\ (blocks = [] \/ IsValidChain blocks = true ->
                   IsValidChain (front ++ [b]) = true))).
Proof.
  intros blocks pending Hlen H. split.
  - intros Hempty. rewrite autoMine_idle in H by exact Hempty.
    injection H as <- <-. split; reflexivity.
  - intros Hpending. unfold autoMine in H. fold pending blocks in H.
    destruct (Z.of_nat (length pending) >? 0) eqn:E.
    2: { destruct pending; [contradiction|]. discriminate E. }
    rewrite tip_hash_Ok in H by exact Hlen. cbn [mbind result_bind] in H.
    apply bind_Ok in H as [[b pool] [Hcreate H]].
    apply bind_Ok in H as [[bc' files'] [Hadd H]].
    cbn [fst snd] in Hadd, H. injection H as <- <-.
    cbn [minerPool minerLedger minerChain].
    split; [reflexivity|]. split; [reflexivity|].
    destruct (CreateBlock_Ok _ _ _ _ _ _ _ _ _ _ _ _ _ _ _ _ Hcreate)
      as [Hhash [Hprev [Hindex _]]].
    apply CreateBlock_mined in Hcreate as [_ [_ [_ [k Hb]]]].
    destruct (AddBlock_outcome w (minerChain st) b)
      as [bc'' [files'' [front [Hadd' [Htip Hnone]]]]].
    rewrite Hadd in Hadd'. injection Hadd' as <- <-.
    exists b, front. split; [exact Htip|]. split; [exact Hindex|].
    split; [exact Hprev|]. split; [rewrite Hb; reflexivity|]. split; [exact Hhash|].
    intros Hfiles. rewrite (Hnone Hfiles). fold blocks.
    split; [reflexivity|]. intros Hvalid. apply IsValidChain_snoc; [exact Hhash|].
    rewrite Hprev. destruct blocks as [|g rest] eqn:Eb; [reflexivity|].
    destruct Hvalid as [Hvalid|Hvalid]; [discriminate Hvalid|].
    split; [exact Hvalid|].
    destruct (exists_last (l := g :: rest)) as [front' [tip Ef]]; [discriminate|].
    rewrite Ef, last_snoc. rewrite <- (last_cons_default g rest tip), Ef, List.last_last.
    reflexivity.
Qed.

Lemma autoMine_step_witness :
  let st :=
    mkMiner NewBlockchain
      (AddTransaction (mkPool []) (NewTransaction 1700000000 "Alice" "Bob" 10.5%float 1))
      (<["Alice" := 100%float]> ∅) in
  exists st',
    autoMine 1 obliging_world 1700000010 1700000010 "Text" "Audio" "Video" 0
      "Miner1" 12.5%float st = Ok (st', [])
    /\ minerPool st' = mkPool []
    /\ minerLedger st' !! "Miner1" = Some 12.5%float.
Proof.
  intros st.
  destruct (autoMine 1 obliging_world 1700000010 1700000010 "Text" "Audio" "Video" 0
              "Miner1" 12.5%float st) as [[st' files]|msg|] eqn:E;
    [|vm_compute in E; discriminate E..].
  assert (Hfiles : files = []) by (vm_compute in E; injection E as _ <-; reflexivity).
  subst files. exists st'. split; [reflexivity|].
  destruct (autoMine_step _ _ _ _ _ _ _ _ _ _ st st' []
              ltac:(vm_compute; reflexivity) E) as [_ H].
  destruct (H ltac:(discriminate)) as [Hpool [Hledger _]].
  split; [exact Hpool|]. rewrite Hledger. vm_compute. reflexivity.
Defined.

(** ** One adjustment of the difficulty *)



(** ** Sub-blocks and the validity of the chain *)

Lemma same_but_SubBlocks_refl b : same_but_SubBlocks b b.
Proof. destruct b; reflexivity. Qed.

Lemma valid_links_SubBlocks previous previous' rest rest' :
  same_but_SubBlocks previous previous' ->
  Forall2 same_but_SubBlocks rest rest' ->
  valid_links previous' rest' = valid_links previous rest.
Proof.
  intros Hp Hr. revert previous previous' Hp.
  induction Hr as [|c c' rest rest' Hc _ IH]; intros previous previous' Hp; [reflexivity|].
  cbn [valid_links]. rewrite (IH c c' Hc).
  unfold same_but_SubBlocks in Hp, Hc. rewrite Hp, Hc. reflexivity.
Qed.

Lemma IsValidChain_SubBlocks blocks blocks' :
  Forall2 same_but_SubBlocks blocks blocks' ->
  IsValidChain blocks' = IsValidChain blocks
  /\ CumulativeDifficulty blocks' = CumulativeDifficulty blocks
  /\ List.map Hash blocks' = List.map Hash blocks.
Proof.
  intros H. split; [|split].
  - destruct H as [|g g' rest rest' Hg Hrest]; [reflexivity|].
    cbn [IsValidChain]. rewrite (valid_links_SubBlocks g g' rest rest' Hg Hrest).
    unfold same_but_SubBlocks in Hg. rewrite Hg. reflexivity.
  - unfold CumulativeDifficulty. generalize 0.
    induction H as [|c c' rest rest' Hc _ IH]; intros total; [reflexivity|].
    cbn [CumulativeDifficulty_from]. rewrite IH.
    unfold same_but_SubBlocks in Hc. rewrite Hc. reflexivity.
  - induction H as [|c c' rest rest' Hc _ IH]; [reflexivity|].
    cbn [List.map]. rewrite IH. unfold same_but_SubBlocks in Hc. rewrite Hc. reflexivity.
Qed.

(** X30.  Sub-blocks are outside what makes a chain valid.  After
    [UpdateBlockWithSubBlockEx] the chain points to as many blocks as
    before, block for block the same but for the sub-blocks of the parent;
    [IsValidChain] gives the same answer, and the cumulative difficulty and
    the hashes are the same. *)
Theorem UpdateBlockWithSubBlockEx_chain_view fuel now bc parentIndex
    text audio video category bc' out blocks :
  chain_blocks bc = Some blocks ->
  UpdateBlockWithSubBlockEx fuel now bc parentIndex text audio video category
  = Ok (bc', out) ->
  exists blocks',
    chain_blocks bc' = Some blocks'
    /\ Forall2 same_but_SubBlocks blocks blocks'
    /\ IsValidChain blocks' = IsValidChain blocks
    /\ CumulativeDifficulty blocks' = CumulativeDifficulty blocks
    /\ List.map Hash blocks' = List.map Hash blocks.
Proof.
  intros Hview H.
  assert (Hgoal : exists blocks', chain_blocks bc' = Some blocks'
                    /\ Forall2 same_but_SubBlocks blocks blocks').
  { unfold UpdateBlockWithSubBlockEx in H.
    destruct ((parentIndex <? 0) || (parentIndex >=? Z.of_nat (length (chain bc)))).
    { injection H as <- _. exists blocks. split; [exact Hview|].
      apply Forall_Forall2_diag, Forall_forall. intros b _. apply same_but_SubBlocks_refl. }
    apply bind_Ok in H as [parentPtr [_ H]].
    apply bind_Ok in H as [parentBlock [Hparent H]].
    apply bind_Ok in H as [subBlock [_ H]].
    unfold alloc in H. injection H as <- _.
    unfold deref in Hparent.
    destruct (heap bc !! parentPtr) as [pb|] eqn:Hpb; [|discriminate Hparent].
    injection Hparent as ->.
    unfold chain_blocks in *. cbn [heap chain].
    apply mapM_Some in Hview.
    set (subPtr := fresh (dom (heap bc))).
    assert (Hfresh : heap bc !! subPtr = None).
    { apply not_elem_of_dom. apply is_fresh. }
    set (parent' := set_SubBlocks (SubBlocks parentBlock ++ [subPtr]) parentBlock).
    assert (Hptrs : exists blocks',
              Forall2 (fun p b' =>
                         <[parentPtr := parent']>
                           (<[subPtr := set_Hash (CalculateHash subBlock) subBlock]>
                              (heap bc)) !! p = Some b')
                      (chain bc) blocks'
              /\ Forall2 same_but_SubBlocks blocks blocks').
    { induction Hview as [|p b ptrs bs Hp _ [bs' [IH1 IH2]]].
      - exists []. split; constructor.
      - destruct (decide (p = parentPtr)) as [->|Hne].
        + exists (parent' :: bs'). split.
          * constructor; [apply lookup_insert_eq|exact IH1].
          * constructor; [|exact IH2]. rewrite Hpb in Hp. injection Hp as <-.
            reflexivity.
        + exists (b :: bs'). split.
          * constructor; [|exact IH1].
            rewrite lookup_insert_ne by congruence.
            rewrite lookup_insert_ne by congruence. exact Hp.
          * constructor; [apply same_but_SubBlocks_refl|exact IH2]. }
    destruct Hptrs as [blocks' [H1 H2]]. exists blocks'.
    split; [apply mapM_Some, H1|exact H2]. }
  destruct Hgoal as [blocks' [H1 H2]]. exists blocks'.
  split; [exact H1|]. split; [exact H2|]. apply IsValidChain_SubBlocks, H2.
Qed.

Lemma UpdateBlockWithSubBlockEx_chain_view_witness :
  exists bc' blocks blocks',
    UpdateBlockWithSubBlockEx 100 1700000001 sample_store 1
      "New Text Update" "" "" "text" = Ok (bc', [])
    /\ chain_blocks sample_store = Some blocks
    /\ chain_blocks bc' = Some blocks'
    /\ IsValidChain blocks = true /\ IsValidChain blocks' = true.
Proof.
  destruct (UpdateBlockWithSubBlockEx 100 1700000001 sample_store 1
              "New Text Update" "" "" "text") as [[bc' out]|msg|] eqn:E;
    [|vm_compute in E; discriminate E..].
  assert (Hout : out = []) by (vm_compute in E; injection E as _ <-; reflexivity).
  subst out.
  destruct (chain_blocks sample_store) as [blocks|] eqn:Hview;
    [|vm_compute in Hview; discriminate Hview].
  destruct (UpdateBlockWithSubBlockEx_chain_view _ _ _ _ _ _ _ _ _ _ _ Hview E)
    as [blocks' [H1 [_ [H2 _]]]].
  assert (Hvalid : IsValidChain blocks = true).
  { vm_compute in Hview. injection Hview as <-. vm_compute. reflexivity. }
  exists bc', blocks, blocks'. split; [reflexivity|]. split; [reflexivity|].
  split; [exact H1|]. split; [exact Hvalid|]. rewrite H2. exact Hvalid.
Defined.
